(** * Discrete-time unscented Kalman filter of [qwfilter/kalman.py]

    The development follows the Python module top-down: the numerical
    back end the module calls (NumPy / SciPy routines, in exact real
    arithmetic), the unscented transform classes, the differentiable
    Cholesky factorisation, the predictor and the corrector, and the
    filter driver.

    Floating-point numbers are idealised as the real numbers of the
    Standard Library; arrays of fixed shape are MathComp matrices. *)

From HB Require Import structures.
From Stdlib Require Import Reals Epsilon FunctionalExtensionality String.
From mathcomp Require Import boot order algebra.

Set Implicit Arguments.
Unset Strict Implicit.
Unset Printing Implicit Defensive.

(** ** The reals as a MathComp real field

    [numpy] scalars are modelled by [R].  The instances below equip [R]
    with the algebraic and order structures that the matrix library and
    the arithmetic tactics expect. *)

Module RealInstances.

Local Notation r0 := (IZR Z0).
Local Notation r1 := (IZR (Zpos xH)).

Definition eqr (x y : R) : bool := if Req_EM_T x y then true else false.

Lemma eqrP : Equality.axiom eqr.
Proof. by move=> x y; rewrite /eqr; case: Req_EM_T => h; constructor. Qed.

HB.instance Definition _ := hasDecEq.Build R eqrP.

Definition pickR (P : pred R) (n : nat) : option R :=
  let x := epsilon (inhabits r0) (fun y => P y) in
  if P x then Some x else None.

Lemma pickR_some P n x : pickR P n = Some x -> P x.
Proof. by rewrite /pickR; case: ifP => // Px [<-]. Qed.

Lemma pickR_ex (P : pred R) : (exists x, P x) -> exists n, pickR P n.
Proof.
move=> exP; exists 0%N; rewrite /pickR.
by rewrite (epsilon_spec (inhabits r0) (fun y => P y) exP).
Qed.

Lemma pickR_ext (P Q : pred R) : P =1 Q -> pickR P =1 pickR Q.
Proof.
move=> PQ n; rewrite /pickR.
by have -> : P = Q by apply: functional_extensionality.
Qed.

HB.instance Definition _ := hasChoice.Build R pickR_some pickR_ex pickR_ext.

Fact RplusA : associative Rplus.
Proof. by move=> x y z; rewrite Rplus_assoc. Qed.

HB.instance Definition _ :=
  GRing.isZmodule.Build R RplusA Rplus_comm Rplus_0_l Rplus_opp_l.

Fact RmultA : associative Rmult.
Proof. by move=> x y z; rewrite Rmult_assoc. Qed.

Fact R1_neq_0 : r1 != r0.
Proof. by apply/eqP/R1_neq_R0. Qed.

HB.instance Definition _ := GRing.Zmodule_isComNzRing.Build R
  RmultA Rmult_comm Rmult_1_l Rmult_plus_distr_r R1_neq_0.

Definition Rinvx (x : R) : R := if x != r0 then Rinv x else x.

Fact RmultVx (x : R) : x != r0 -> Rmult (Rinvx x) x = r1.
Proof. by move=> x0; rewrite /Rinvx x0; apply: Rinv_l; apply/eqP. Qed.

Fact Rinvx0 : Rinvx r0 = r0.
Proof. by rewrite /Rinvx eqxx. Qed.

HB.instance Definition _ := GRing.ComNzRing_isField.Build R RmultVx Rinvx0.

Definition Rleb (x y : R) : bool := if Rle_dec x y then true else false.
Definition Rltb (x y : R) : bool := if Rlt_dec x y then true else false.

Lemma RlebP x y : reflect (Rle x y) (Rleb x y).
Proof. by rewrite /Rleb; case: Rle_dec => h; constructor. Qed.

Lemma RltbP x y : reflect (Rlt x y) (Rltb x y).
Proof. by rewrite /Rltb; case: Rlt_dec => h; constructor. Qed.

Fact Rleb0D x y : Rleb r0 x -> Rleb r0 y -> Rleb r0 (Rplus x y).
Proof.
by move=> /RlebP hx /RlebP hy; apply/RlebP; apply: Rplus_le_le_0_compat.
Qed.

Fact Rleb0M x y : Rleb r0 x -> Rleb r0 y -> Rleb r0 (Rmult x y).
Proof. by move=> /RlebP hx /RlebP hy; apply/RlebP; apply: Rmult_le_pos. Qed.

Fact Rleb0_anti x : Rleb r0 x -> Rleb x r0 -> x = r0.
Proof. by move=> /RlebP hx /RlebP hy; apply: Rle_antisym. Qed.

Fact Rleb_sub x y : Rleb r0 (Rplus y (Ropp x)) = Rleb x y.
Proof.
apply/RlebP/RlebP => h.
  by apply: (Rplus_le_reg_r (Ropp x)); rewrite Rplus_opp_r.
by rewrite -(Rplus_opp_r x); apply: Rplus_le_compat_r.
Qed.

Fact Rleb0_total x : Rleb r0 x || Rleb x r0.
Proof.
case: (Rle_dec r0 x) => h; first by apply/orP; left; apply/RlebP.
by apply/orP; right; apply/RlebP/Rlt_le/Rnot_le_lt.
Qed.

Fact Rabs_ge0 x : Rleb r0 x -> Rabs x = x.
Proof. by move=> /RlebP h; apply: Rabs_pos_eq. Qed.

Fact Rltb_def x y : Rltb x y = (y != x) && Rleb x y.
Proof.
apply/RltbP/andP => [h|[/eqP h /RlebP h']].
  split; last by apply/RlebP/Rlt_le.
  by apply/eqP => e; move: h; rewrite e; apply: Rlt_irrefl.
by case: h' => // e; case: h.
Qed.

HB.instance Definition _ := Num.IntegralDomain_isLeReal.Build R
  Rleb0D Rleb0M Rleb0_anti Rleb_sub Rleb0_total Rabs_Ropp Rabs_ge0 Rltb_def.

End RealInstances.
HB.export RealInstances.

Import GRing.Theory Num.Theory Order.Theory.
Local Open Scope ring_scope.

Lemma RleP (x y : R) : reflect (Rle x y) (x <= y).
Proof. exact: RealInstances.RlebP. Qed.

Lemma RltP (x y : R) : reflect (Rlt x y) (x < y).
Proof. exact: RealInstances.RltbP. Qed.

(** Terms of type [R] are read with the ring notations. *)
Bind Scope ring_scope with R.

(** ** Exceptions

    A call either returns a value or raises; a raised exception aborts
    the enclosing calls (none of the modelled code catches one). *)

Inductive exn : Type :=
  | AssertionError | ValueError | TypeError | LinAlgError
  | AttributeError | NameError.

Inductive result (A : Type) : Type :=
  | Ok of A
  | Raise of exn.

Arguments Raise {A} e.

Definition bind (A B : Type) (c : result A) (k : A -> result B) : result B :=
  match c with
  | Ok a => k a
  | Raise e => Raise e
  end.

Notation "'let!' x ':=' c 'in' k" := (bind c (fun x => k))
  (at level 200, x pattern, c at level 100, k at level 200,
   right associativity, format "'[v' 'let!'  x  :=  c  'in' '/' k ']'").

(** Reading an attribute that may not have been set yet. *)
Definition getattr (A : Type) (field : option A) : result A :=
  if field is Some a then Ok a else Raise AttributeError.

Definition succeeds (A : Type) (c : result A) : Prop := exists a, c = Ok a.
Definition raises (A : Type) (c : result A) : Prop := exists e, c = Raise e.

(** ** Matrix predicates *)

Section MatrixPredicates.
Variable n : nat.
Implicit Types (A : 'M[R]_n) (v : 'rV[R]_n).

Definition symmetric A : Prop := A^T = A.

(** The quadratic form [v A v^T]. *)
Definition qform A v : R := (v *m A *m v^T) 0 0.

Definition psd A : Prop := forall v, 0 <= qform A v.
Definition posdef A : Prop := forall v, v != 0 -> 0 < qform A v.

Definition upper_triangular A : bool := is_trig_mx A^T.

End MatrixPredicates.

(** ** Linear-algebra back end

    [scipy.linalg.cholesky(Q, lower=False)], in exact arithmetic: the
    factorisation proceeds along the diagonal, takes the square root of
    the pivot, scales the rest of the pivot row and continues with the
    trailing block from which the outer product of that row has been
    removed.  Only the upper triangle of [Q] is read.  A pivot that is not
    positive raises [LinAlgError]. *)
Fixpoint cholesky (n : nat) : 'M[R]_n -> result 'M[R]_n :=
  match n with
  | 0 => fun Q => Ok Q
  | n'.+1 => fun Q =>
      let Q' : 'M[R]_(1 + n') := Q in
      let a := Q' 0 0 in
      if a <= 0 then Raise LinAlgError
      else
        let r := sqrt a in
        let row := r^-1 *: ursubmx Q' in
        let! S' := cholesky (drsubmx Q' - row^T *m row) in
        Ok (block_mx r%:M row 0 S' : 'M[R]_(1 + n'))
  end.

(** [scipy.linalg.inv]: the inverse, [LinAlgError] on a singular matrix. *)
Definition inv (n : nat) (A : 'M[R]_n) : result 'M[R]_n :=
  if A \in unitmx then Ok (invmx A) else Raise LinAlgError.

(** ** Array helpers *)

(** [M + v] with [v] broadcast over the rows of [M]. *)
Definition rows (m n : nat) (v : 'rV[R]_n) : 'M[R]_(m, n) :=
  \matrix_(k, j) v 0 j.

(** [np.einsum('ki,kj,k', A, B, w)]: the weighted product [A^T diag(w) B]. *)
Definition weighted_outer (m n p : nat) (A : 'M[R]_(m, n)) (B : 'M[R]_(m, p))
    (w : 'rV[R]_m) : 'M[R]_(n, p) :=
  A^T *m diag_mx w *m B.

(** [np.tril_indices(n)], as the list of index pairs [(i, j)], [j <= i],
    row by row. *)
Definition tril_indices (n : nat) : seq ('I_n * 'I_n) :=
  flatten [seq [seq (p, q) | q <- [seq q : 'I_n <- enum 'I_n | (q <= p)%N]]
          | p : 'I_n <- enum 'I_n].

(** ** Options passed to the constructors *)

Inductive pyval : Type :=
  | PyStr of string
  | PyFloat of R.

Definition options : Type := seq (string * pyval).

(** [options.get(key)]. *)
Fixpoint opt_get (o : options) (key : string) : option pyval :=
  match o with
  | [::] => None
  | (k, v) :: o' => if String.eqb k key then Some v else opt_get o' key
  end.

(** [d.update(e)] on a copy of [d]: the entries of [e] take precedence. *)
Definition opt_update (d e : options) : options := e ++ d.

(** ** Work data of the differentiable Cholesky factorisation

    [DifferentiableCholesky] stores its data on whatever work object it is
    given: the factor [S] and the cached index arrays. *)

Record chol_work (n : nat) : Type := CholWork {
  chol_S : option 'M[R]_n;
  gradient_data_initialized : option nat;
  ni_range : option (seq 'I_n);
  ni_tril_indices : option (seq ('I_n * 'I_n))
}.

Definition chol_work0 (n : nat) : chol_work n := CholWork None None None None.

Section DifferentiableCholesky.
Variable nq : nat.

Definition initialize_gradient_data (n : nat) (work : chol_work n) (ni : nat) :
    chol_work n :=
  if odflt 0%N (gradient_data_initialized work) == ni then work
  else CholWork (chol_S work) (Some ni) (Some (enum 'I_n))
         (Some (tril_indices n)).

(** [DifferentiableCholesky.decompose]. *)
Definition decompose (n : nat) (work : chol_work n) (Q : 'M[R]_n) :
    result (chol_work n * 'M[R]_n) :=
  let! Sm := cholesky Q in
  Ok (CholWork (Some Sm) (gradient_data_initialized work) (ni_range work)
        (ni_tril_indices work), Sm).

(** The array [A] of [diff] after the two indexed assignments: the entry
    [A[p, q, r, c]] is written by the first when [r = p] and by the second
    when [r = q], for [p], [q], [c] among the index arrays. *)
Definition diff_A (n : nat) (S : 'M[R]_n) (i j k : seq 'I_n)
    (p q r c : 'I_n) : R :=
  let hit := [&& p \in i, q \in j & c \in k] in
  (if hit && (r == p) then S c q else 0) +
  (if hit && (r == q) then S c p else 0).

(** [dS_dq[..., j, i] = dS_dq_tril]: the positions are written in turn. *)
Definition scatter_tril (n : nat) (t : seq ('I_n * 'I_n))
    (v : 'rV[R]_(size t)) : 'M[R]_n :=
  foldl (fun (M : 'M[R]_n) (b : 'I_(size t)) =>
           let ij := tnth (in_tuple t) b in
           \matrix_(r, c) if (r == ij.2) && (c == ij.1) then v 0 b else M r c)
        0 (enum 'I_(size t)).

(** [DifferentiableCholesky.diff]. *)
Definition diff (n : nat) (work : chol_work n)
    (dQ_dq : {ffun 'I_nq -> 'M[R]_n}) :
    result (chol_work n * {ffun 'I_nq -> 'M[R]_n}) :=
  let! Sm := getattr (chol_S work) in
  let work := initialize_gradient_data work n in
  let! k := getattr (ni_range work) in
  let! t := getattr (ni_tril_indices work) in
  let i := unzip1 t in
  let j := unzip2 t in
  let ij := tnth (in_tuple t) in
  let A_tril : 'M[R]_(size t) :=
    \matrix_(a, b) diff_A Sm i j k (ij a).1 (ij a).2 (ij b).1 (ij b).2 in
  let! A_tril_inv := inv A_tril in
  let dQ_dq_tril a : 'rV[R]_(size t) :=
    \row_b dQ_dq a (ij b).1 (ij b).2 in
  let dS_dq_tril a : 'rV[R]_(size t) := dQ_dq_tril a *m A_tril_inv^T in
  Ok (work, [ffun a => scatter_tril (dS_dq_tril a)]).

End DifferentiableCholesky.

(** ** Unscented transform *)

Inductive ut_class : Type :=
  | CholeskyUnscentedTransform
  | SVDUnscentedTransform.

(** A transform object: its class and the attributes [ni] (in the type) and
    [kappa]; [nsigma] and [weights] are computed from them as in
    [__init__]. *)
Record UnscentedTransform (ni : nat) : Type := UT {
  ut_class_of : ut_class;
  kappa : R
}.

(** [UnscentedTransformWork], with the attributes the transform adds to it.
    [ns] is the number of sigma points and [no] the number of outputs of
    the transformed function. *)
Record UnscentedTransformWork (nq ni ns no : nat) : Type := UTWork {
  ut_i : 'rV[R]_ni;
  ut_Pi : 'M[R]_ni;
  ut_chol : chol_work ni;
  i_sigma : option 'M[R]_(ns, ni);
  i_dev : option 'M[R]_(ns, ni);
  o_sigma : option 'M[R]_(ns, no);
  o_dev : option 'M[R]_(ns, no);
  ut_o : option 'rV[R]_no;
  ut_Po : option 'M[R]_no;
  di_dev_dq : option {ffun 'I_nq -> 'M[R]_(ns, ni)};
  di_sigma_dq : option {ffun 'I_nq -> 'M[R]_(ns, ni)};
  do_dev_dq : option {ffun 'I_nq -> 'M[R]_(ns, no)}
}.

Section UnscentedTransformBase.

(** [scipy.linalg.svd], returning [(U, s, VT)]. *)
Variable svd : forall n : nat, 'M[R]_n -> result ('M[R]_n * 'rV[R]_n * 'M[R]_n).

Variable nq : nat.
Variable ni : nat.

(** [options.get('kappa', 0.0)] followed by [self.ni + self.kappa]. *)
Definition kappa_option (opts : options) : result R :=
  match opt_get opts "kappa" with
  | None => Ok 0
  | Some (PyFloat kap) => Ok kap
  | Some (PyStr _) => Raise TypeError
  end.

(** [UnscentedTransformBase.__init__], called on the class [cls]. *)
Definition UT_init (cls : ut_class) (opts : options) :
    result (UnscentedTransform ni) :=
  let! kap := kappa_option opts in
  if ni%:R + kap == 0 then Raise AssertionError
  else Ok (UT ni cls kap).

Variable self : UnscentedTransform ni.

(** [2 * ni + (kappa != 0)], written so that the three row blocks of the
    sigma-point array show in the type. *)
Definition nsigma : nat := (ni + (ni + (kappa self != 0%R)))%N.

Definition weights : 'rV[R]_nsigma :=
  \row_(k < nsigma)
    if (kappa self != 0) && (k == nsigma.-1 :> nat)
    then kappa self / (ni%:R + kappa self)
    else 2^-1 / (ni%:R + kappa self).

Definition Work (no : nat) (i : 'rV[R]_ni) (Pi : 'M[R]_ni) :
    UnscentedTransformWork nq ni nsigma no :=
  @UTWork nq ni nsigma no i Pi (chol_work0 ni)
    None None None None None None None None None.

Section Methods.
Variable no : nat.
Notation work_t := (UnscentedTransformWork nq ni nsigma no).

Definition set_chol (work : work_t) (c : chol_work ni) : work_t :=
  @UTWork nq ni nsigma no (ut_i work) (ut_Pi work) c
    (i_sigma work) (i_dev work) (o_sigma work) (o_dev work) (ut_o work)
    (ut_Po work) (di_dev_dq work) (di_sigma_dq work) (do_dev_dq work).

(** The [sqrt] method of the two subclasses. *)
Definition ut_sqrt (work : work_t) (Q : 'M[R]_ni) :
    result (work_t * 'M[R]_ni) :=
  match ut_class_of self with
  | CholeskyUnscentedTransform =>
      let! (c, Sm) := decompose (ut_chol work) Q in
      Ok (set_chol work c, Sm)
  | SVDUnscentedTransform =>
      let! (U, s, VT) := svd Q in
      let Sm := (U *m diag_mx (map_mx sqrt s))^T in
      let c := ut_chol work in
      Ok (set_chol work
            (CholWork (Some Sm) (gradient_data_initialized c) (ni_range c)
               (ni_tril_indices c)), Sm)
  end.

(** [sqrt_diff]: only [CholeskyUnscentedTransform] defines it. *)
Definition ut_sqrt_diff (work : work_t) (dQ_dq : {ffun 'I_nq -> 'M[R]_ni}) :
    result (work_t * {ffun 'I_nq -> 'M[R]_ni}) :=
  match ut_class_of self with
  | CholeskyUnscentedTransform =>
      let! (c, dS_dq) := diff (ut_chol work) dQ_dq in
      Ok (set_chol work c, dS_dq)
  | SVDUnscentedTransform => Raise AttributeError
  end.

(** The deviations: rows [0 .. ni) are [S], rows [ni .. 2 ni) are [- S],
    the centre row, when there is one, stays zero. *)
Definition deviations (Sm : 'M[R]_ni) : 'M[R]_(nsigma, ni) :=
  col_mx Sm (col_mx (- Sm) 0).

Definition sigma_points (work : work_t) : result (work_t * 'M[R]_(nsigma, ni)) :=
  let! (work, Sm) := ut_sqrt work ((ni%:R + kappa self) *: ut_Pi work) in
  let dev := deviations Sm in
  let sig := dev + rows nsigma (ut_i work) in
  Ok (@UTWork nq ni nsigma no (ut_i work) (ut_Pi work) (ut_chol work)
        (Some sig) (Some dev) (o_sigma work) (o_dev work) (ut_o work)
        (ut_Po work) (di_dev_dq work) (di_sigma_dq work) (do_dev_dq work),
      sig).

Definition sigma_points_diff (work : work_t)
    (di_dq : {ffun 'I_nq -> 'rV[R]_ni}) (dPi_dq : {ffun 'I_nq -> 'M[R]_ni}) :
    result (work_t * {ffun 'I_nq -> 'M[R]_(nsigma, ni)}) :=
  let! (work, dS_dq) :=
    ut_sqrt_diff work [ffun a => (ni%:R + kappa self) *: dPi_dq a] in
  let ddev := [ffun a => deviations (dS_dq a)] in
  let dsig := [ffun a => ddev a + rows nsigma (di_dq a)] in
  Ok (@UTWork nq ni nsigma no (ut_i work) (ut_Pi work) (ut_chol work)
        (i_sigma work) (i_dev work) (o_sigma work) (o_dev work) (ut_o work)
        (ut_Po work) (Some ddev) (Some dsig) (do_dev_dq work),
      dsig).

Definition transform (work : work_t)
    (f : 'M[R]_(nsigma, ni) -> 'M[R]_(nsigma, no)) :
    result (work_t * ('rV[R]_no * 'M[R]_no)) :=
  let! (work, sig) := sigma_points work in
  let osig := f sig in
  let o := weights *m osig in
  let odev := osig - rows nsigma o in
  let Po := weighted_outer odev odev weights in
  Ok (@UTWork nq ni nsigma no (ut_i work) (ut_Pi work) (ut_chol work)
        (i_sigma work) (i_dev work) (Some osig) (Some odev) (Some o)
        (Some Po) (di_dev_dq work) (di_sigma_dq work) (do_dev_dq work),
      (o, Po)).

Definition transform_diff (work : work_t)
    (df_dq : 'M[R]_(nsigma, ni) -> {ffun 'I_nq -> 'M[R]_(nsigma, no)})
    (df_dx : 'M[R]_(nsigma, ni) -> {ffun 'I_nsigma -> 'M[R]_(ni, no)})
    (di_dq : {ffun 'I_nq -> 'rV[R]_ni}) (dPi_dq : {ffun 'I_nq -> 'M[R]_ni}) :
    result (work_t * ({ffun 'I_nq -> 'rV[R]_no} * {ffun 'I_nq -> 'M[R]_no})) :=
  let! sig := getattr (i_sigma work) in
  let! (work, dsig) := sigma_points_diff work di_dq dPi_dq in
  let Do_sigma_Dq : {ffun 'I_nq -> 'M[R]_(nsigma, no)} :=
    [ffun a => df_dq sig a +
               \matrix_(k, c) (row k (dsig a) *m df_dx sig k) 0 c] in
  let do_dq := [ffun a => weights *m Do_sigma_Dq a] in
  let ddev := [ffun a => Do_sigma_Dq a - rows nsigma (do_dq a)] in
  let! odev := getattr (o_dev work) in
  let dPo_dq : {ffun 'I_nq -> 'M[R]_no} :=
    [ffun a => weighted_outer odev (ddev a) weights] in
  let dPo_dq := [ffun a => dPo_dq a + (dPo_dq a)^T] in
  Ok (@UTWork nq ni nsigma no (ut_i work) (ut_Pi work) (ut_chol work)
        (i_sigma work) (i_dev work) (o_sigma work) (o_dev work) (ut_o work)
        (ut_Po work) (di_dev_dq work) (di_sigma_dq work) (Some ddev),
      (do_dq, dPo_dq)).

Definition crosscov (work : work_t) : result 'M[R]_(ni, no) :=
  let! idev := getattr (i_dev work) in
  let! odev := getattr (o_dev work) in
  Ok (weighted_outer idev odev weights).

Definition crosscov_diff (work : work_t) :
    result {ffun 'I_nq -> 'M[R]_(ni, no)} :=
  let! didev := getattr (di_dev_dq work) in
  let! odev := getattr (o_dev work) in
  let! idev := getattr (i_dev work) in
  let! dodev := getattr (do_dev_dq work) in
  Ok [ffun a => weighted_outer (didev a) odev weights +
                weighted_outer idev (dodev a) weights].

End Methods.
End UnscentedTransformBase.

Arguments Work {nq ni} self {no} i Pi.
Arguments ut_sqrt svd {nq ni} self {no} work Q.
Arguments ut_sqrt_diff {nq ni} self {no} work dQ_dq.
Arguments sigma_points svd {nq ni} self {no} work.
Arguments sigma_points_diff {nq ni} self {no} work di_dq dPi_dq.
Arguments transform svd {nq ni} self {no} work f.
Arguments transform_diff {nq ni} self {no} work df_dq df_dx di_dq dPi_dq.
Arguments crosscov {nq ni} self {no} work.
Arguments crosscov_diff {nq ni} self {no} work.

(** [choose_ut_transform_class]. *)
Definition choose_ut_transform_class (opts : options) : result ut_class :=
  match opt_get opts "sqrt" with
  | None => Ok CholeskyUnscentedTransform
  | Some (PyStr s) =>
      if String.eqb s "cholesky" then Ok CholeskyUnscentedTransform
      else if String.eqb s "svd" then Ok SVDUnscentedTransform
      else Raise ValueError
  | Some (PyFloat _) => Raise ValueError
  end.

(** ** The filter driver

    [DTKalmanFilterBase.filter] is written against the abstract methods
    [correct] and [predict]; so is its model. *)

Section DTKalmanFilterBase.
Variables (W Y X P : Type).
Variable correct : W -> Y -> result (W * (X * P)).
Variable predict : W -> result (W * (X * P)).

(** The loop [for k in range(N)], with [y[k:]] still to be processed and the
    rows [x[:k]], [Px[:k]] already written. *)
Fixpoint filter_loop (N : nat) (ys : seq Y) (k : nat) (work : W)
    (xs : seq X) (Pxs : seq P) : result (W * (seq X * seq P)) :=
  match ys with
  | [::] => Ok (work, (xs, Pxs))
  | yk :: ys' =>
      let! (work, (xk, Pxk)) := correct work yk in
      let! work :=
        if (k < N - 1)%N then
          let! (work, _) := predict work in Ok work
        else Ok work in
      filter_loop N ys' k.+1 work (rcons xs xk) (rcons Pxs Pxk)
  end.

Definition kf_filter (work : W) (y : seq Y) : result (W * (seq X * seq P)) :=
  filter_loop (size y) y 0 work [::] [::].

End DTKalmanFilterBase.

(** The calls a run of [filter] makes, in order; a [correct] call is
    recorded with the pair it returned. *)
Inductive call (X P : Type) : Type :=
  | CorrectCall of X & P
  | PredictCall.

Arguments PredictCall {X P}.

Section CallLog.
Variables (W Y X P : Type).
Variable correct : W -> Y -> result (W * (X * P)).
Variable predict : W -> result (W * (X * P)).

(** The two methods on a work object that carries the log of the calls
    made on it so far. *)
Definition logged_correct (wl : W * seq (call X P)) (yk : Y) :
    result (W * seq (call X P) * (X * P)) :=
  let! (w, (xk, Pxk)) := correct wl.1 yk in
  Ok ((w, rcons wl.2 (CorrectCall xk Pxk)), (xk, Pxk)).

Definition logged_predict (wl : W * seq (call X P)) :
    result (W * seq (call X P) * (X * P)) :=
  let! (w, r) := predict wl.1 in
  Ok ((w, rcons wl.2 PredictCall), r).

(** The log of a run that corrects with the given results, predicting
    between two corrections. *)
Fixpoint alternate (rs : seq (X * P)) : seq (call X P) :=
  match rs with
  | [::] => [::]
  | r :: rs' =>
      CorrectCall r.1 r.2 ::
      (if rs' is [::] then [::] else PredictCall :: alternate rs')
  end.

Definition is_correct_call (c : call X P) : bool :=
  if c is CorrectCall _ _ then true else false.

Definition is_predict_call (c : call X P) : bool :=
  if c is PredictCall then true else false.

End CallLog.

(** ** Measurements with missing entries ([numpy.ma] arrays) *)

Record masked_array (n : nat) : Type := MaskedArray {
  ma_data : 'rV[R]_n;
  ma_mask : {set 'I_n}
}.

(** ** The unscented Kalman filter *)

Section UnscentedKalmanFilter.

Variable svd : forall n : nat, 'M[R]_n -> result ('M[R]_n * 'rV[R]_n * 'M[R]_n).
Variables nq nx ny : nat.

(** The model: the functions are applied to arrays whose rows are states. *)
Record Model : Type := {
  m_f : nat -> forall m : nat, 'M[R]_(m, nx) -> 'M[R]_(m, nx);
  m_Q : nat -> 'rV[R]_nx -> 'M[R]_nx;
  m_h : nat -> forall m : nat, 'M[R]_(m, nx) -> 'M[R]_(m, ny);
  m_R : 'M[R]_ny;
  m_dh_dq : nat -> forall m : nat, 'M[R]_(m, nx) ->
            {ffun 'I_nq -> 'M[R]_(m, ny)};
  m_dh_dx : nat -> forall m : nat, 'M[R]_(m, nx) ->
            {ffun 'I_m -> 'M[R]_(nx, ny)};
  m_dR_dq : {ffun 'I_nq -> 'M[R]_ny}
}.

Variable model : Model.

(** The transform objects [self.__ut] of the predictor and of the
    corrector. *)
Variables pred_ut corr_ut : UnscentedTransform nx.

(** What a correction with [na] active outputs leaves on the work object. *)
Record CorrectionData : Type := CorrData {
  cd_na : nat;
  cd_corr_ut : UnscentedTransformWork nq nx (nsigma corr_ut) cd_na;
  cd_py_chol : chol_work cd_na;
  cd_e : 'rV[R]_cd_na;
  cd_Pxh : 'M[R]_(nx, cd_na);
  cd_PyI : 'M[R]_cd_na;
  cd_PyC : 'M[R]_cd_na;
  cd_PyCI : 'M[R]_cd_na;
  cd_K : 'M[R]_(nx, cd_na)
}.

(** [DTKalmanFilterWork] and the attributes the filter adds to it. *)
Record DTKalmanFilterWork : Type := KWork {
  kw_x : 'rV[R]_nx;
  kw_Px : 'M[R]_nx;
  kw_k : nat;
  kw_active : option {set 'I_ny};
  kw_prev_x : option 'rV[R]_nx;
  kw_prev_Px : option 'M[R]_nx;
  kw_pred_ut : option (UnscentedTransformWork nq nx (nsigma pred_ut) nx);
  kw_corr : option CorrectionData;
  kw_L : option R;
  kw_PyCD : option (seq R);
  kw_dx_dq : option {ffun 'I_nq -> 'rV[R]_nx};
  kw_dPx_dq : option {ffun 'I_nq -> 'M[R]_nx}
}.

(** [DTKalmanFilterWork(x, Px, k)]. *)
Definition KWork_init (x : 'rV[R]_nx) (Px : 'M[R]_nx) (k : nat) :
    DTKalmanFilterWork :=
  KWork x Px k None None None None None None None None None.

(** [DTUnscentedPredictor.predict]. *)
Definition predict (work : DTKalmanFilterWork) :
    result (DTKalmanFilterWork * ('rV[R]_nx * 'M[R]_nx)) :=
  let f_fun := m_f model (kw_k work) (m := nsigma pred_ut) in
  let utw := Work pred_ut (kw_x work) (kw_Px work) in
  let! (utw, (f, Pf)) := transform svd pred_ut utw f_fun in
  let Q := m_Q model (kw_k work) (kw_x work) in
  Ok (KWork f (Pf + Q) (kw_k work).+1 (kw_active work)
        (Some (kw_x work)) (Some (kw_Px work)) (Some utw) (kw_corr work)
        (kw_L work) (kw_PyCD work) (kw_dx_dq work) (kw_dPx_dq work),
      (f, Pf + Q)).

(** The positions of the active outputs, in increasing order. *)
Definition active_index (active : {set 'I_ny}) : 'I_#|active| -> 'I_ny :=
  enum_val.
Arguments active_index : clear implicits.

(** [DTUnscentedCorrector.correct]. *)
Definition correct (work : DTKalmanFilterWork) (y : masked_array ny) :
    result (DTKalmanFilterWork * ('rV[R]_nx * 'M[R]_nx)) :=
  let mask := ma_mask y in
  let active := ~: mask in
  let work := KWork (kw_x work) (kw_Px work) (kw_k work) (Some active)
                (kw_prev_x work) (kw_prev_Px work) (kw_pred_ut work)
                (kw_corr work) (kw_L work) (kw_PyCD work) (kw_dx_dq work)
                (kw_dPx_dq work) in
  if mask == setT then Ok (work, (kw_x work, kw_Px work))
  else
    let sel := active_index active in
    let yc : 'rV[R]_#|active| := colsub sel (ma_data y) in
    let Rm := mxsub sel sel (m_R model) in
    let h_fun X := colsub sel (m_h model (kw_k work) (m := nsigma corr_ut) X) in
    let utw := Work corr_ut (kw_x work) (kw_Px work) in
    let! (utw, (h, Ph)) := transform svd corr_ut utw h_fun in
    let! Pxh := crosscov corr_ut utw in
    let Py := Ph + Rm in
    let! (py_chol, PyC) := decompose (chol_work0 _) Py in
    let! PyCI := inv PyC in
    let PyI := PyCI *m PyCI^T in
    let e := yc - h in
    let K := Pxh *m PyI in
    let x_corr := kw_x work + e *m K^T in
    let Px_corr := kw_Px work - K *m Py *m K^T in
    Ok (KWork x_corr Px_corr (kw_k work) (Some active)
          (Some (kw_x work)) (Some (kw_Px work)) (kw_pred_ut work)
          (Some (CorrData utw py_chol e Pxh PyI PyC PyCI K))
          (kw_L work) (kw_PyCD work) (kw_dx_dq work) (kw_dPx_dq work),
        (x_corr, Px_corr)).

(** [DTUnscentedCorrector.update_likelihood]. *)
Definition update_likelihood (work : DTKalmanFilterWork) :
    result DTKalmanFilterWork :=
  let! active := getattr (kw_active work) in
  if active == set0 then Ok work
  else
    let! cd := getattr (kw_corr work) in
    let PyCD := [seq cd_PyC cd k k | k <- enum 'I_(cd_na cd)] in
    let! L := getattr (kw_L work) in
    let L := L - 2^-1 * (cd_e cd *m cd_PyI cd *m (cd_e cd)^T) 0 0 in
    let L := L - \sum_(d <- PyCD) ln d in
    Ok (KWork (kw_x work) (kw_Px work) (kw_k work) (kw_active work)
          (kw_prev_x work) (kw_prev_Px work) (kw_pred_ut work)
          (kw_corr work) (Some L) (Some PyCD) (kw_dx_dq work)
          (kw_dPx_dq work)).

(** [DTUnscentedCorrector.correction_diff].  The statement that forms
    [dPy_dq] reads the name [dPh_dq]; the unscented transform's result was
    bound to [DPh_Dq], so the name is unbound there. *)
Definition correction_diff (work : DTKalmanFilterWork) :
    result DTKalmanFilterWork :=
  let! active := getattr (kw_active work) in
  if active == set0 then Ok work
  else
    let! cd := getattr (kw_corr work) in
    let! dx_dq := getattr (kw_dx_dq work) in
    let! dPx_dq := getattr (kw_dPx_dq work) in
    match #|active| =P cd_na cd with
    | ReflectF _ => Raise ValueError
    | ReflectT na_eq =>
        let sel := active_index active in
        let dh_dq_fun X :=
          [ffun a => castmx (erefl, na_eq)
                       (colsub sel (m_dh_dq model (kw_k work) X a))] in
        let dh_dx_fun X :=
          [ffun s => castmx (erefl, na_eq)
                       (colsub sel (m_dh_dx model (kw_k work) X s))] in
        let! (utw, (Dh_Dq, DPh_Dq)) :=
          transform_diff corr_ut (cd_corr_ut cd) dh_dq_fun dh_dx_fun
            dx_dq dPx_dq in
        let! dPxh_dq := crosscov_diff corr_ut utw in
        let dR_dq := [ffun a => mxsub sel sel (m_dR_dq model a)] in
        let de_dq := [ffun a => - Dh_Dq a] in
        Raise NameError
    end.

End UnscentedKalmanFilter.

Arguments active_index {ny} active j.

(** ** Constructors of the predictor and of the corrector *)

Section Constructors.

(** [utils.extract_subkeys], which is not part of the module. *)
Variable extract_subkeys : options -> string -> options.
Variable nx : nat.

(** [DTUnscentedPredictor.__init__]: the transform object it builds. *)
Definition DTUnscentedPredictor_init (opts : options) :
    result (UnscentedTransform nx) :=
  let ut_options := opt_update opts (extract_subkeys opts "pred_ut_") in
  let! UTClass := choose_ut_transform_class ut_options in
  UT_init nx UTClass ut_options.

(** [DTUnscentedCorrector.__init__]. *)
Definition DTUnscentedCorrector_init (opts : options) :
    result (UnscentedTransform nx) :=
  let ut_options := opt_update opts (extract_subkeys opts "corr_ut_") in
  let! UTClass := choose_ut_transform_class ut_options in
  UT_init nx UTClass ut_options.

(** [DTUnscentedKalmanFilter(DTUnscentedPredictor, DTUnscentedCorrector)]:
    the predictor's constructor first runs the corrector's through
    [super().__init__], then builds its own transform. *)
Definition DTUnscentedKalmanFilter_init (opts : options) :
    result (UnscentedTransform nx * UnscentedTransform nx) :=
  let! corr_ut := DTUnscentedCorrector_init opts in
  let! pred_ut := DTUnscentedPredictor_init opts in
  Ok (pred_ut, corr_ut).

(** The values of the [sqrt] option the constructors accept. *)
Definition valid_sqrt_option (v : option pyval) : bool :=
  match v with
  | None => true
  | Some (PyStr s) => String.eqb s "cholesky" || String.eqb s "svd"
  | Some (PyFloat _) => false
  end.

End Constructors.

(** ** Vocabulary of the statements *)

(** The affine map [z |-> A z + b], applied to each row of an array. *)
Definition affine_map (ni no m : nat) (A : 'M[R]_(no, ni)) (b : 'rV[R]_no)
    (X : 'M[R]_(m, ni)) : 'M[R]_(m, no) :=
  X *m A^T + rows m b.

(** The contract of [scipy.linalg.svd]: orthogonal factors and
    non-negative singular values that reproduce the matrix. *)
Definition is_svd (n : nat) (Q U : 'M[R]_n) (s : 'rV[R]_n) (VT : 'M[R]_n) :
    Prop :=
  [/\ U^T *m U = 1%:M, VT *m VT^T = 1%:M, forall j, 0 <= s 0 j &
      U *m diag_mx s *m VT = Q].

(** The SVD routine honours its contract whenever it returns. *)
Definition svd_contract
    (svd : forall n : nat, 'M[R]_n -> result ('M[R]_n * 'rV[R]_n * 'M[R]_n)) :
    Prop :=
  forall (n : nat) (Q U VT : 'M[R]_n) (s : 'rV[R]_n),
    svd n Q = Ok (U, s, VT) -> is_svd Q U s VT.

(** What the square-root method of a transform delivers for a covariance. *)
Definition sqrt_exact
    (svd : forall n : nat, 'M[R]_n -> result ('M[R]_n * 'rV[R]_n * 'M[R]_n))
    (nq nx : nat) (self : UnscentedTransform nx) : Prop :=
  forall (no : nat) (w w1 : UnscentedTransformWork nq nx (nsigma self) no)
         (Q Sm : 'M[R]_nx),
    symmetric Q -> psd Q ->
    ut_sqrt svd self w Q = Ok (w1, Sm) -> Sm^T *m Sm = Q.

(** Row-major order on index pairs. *)
Definition row_major (n : nat) (a b : 'I_n * 'I_n) : bool :=
  (a.1 < b.1)%N || ((a.1 == b.1) && (a.2 < b.2)%N).
Arguments row_major {n} a b.

(** The matrix [A_tril] that [diff] inverts, for the index arrays of
    [initialize_gradient_data]. *)
Definition A_tril_of (n : nat) (Sm : 'M[R]_n) :
    'M[R]_(size (tril_indices n)) :=
  let t := tril_indices n in
  let ij := tnth (in_tuple t) in
  \matrix_(a, b) diff_A Sm (unzip1 t) (unzip2 t) (enum 'I_n)
                   (ij a).1 (ij a).2 (ij b).1 (ij b).2.

(** The cached index arrays are either absent or those that
    [initialize_gradient_data] stores. *)
Definition gradient_data_ok (ni : nat) (work : chol_work ni) : Prop :=
  gradient_data_initialized work = None \/
  (ni_range work = Some (enum 'I_ni) /\
   ni_tril_indices work = Some (tril_indices ni)).

(** The likelihood update as the specification writes it,
    [L -= 0.5 e^T Py^-1 e - sum(log(diag(factor)))], read as one
    subtraction. *)
Definition claimed_likelihood (L : R) (na : nat) (e : 'rV[R]_na)
    (PyI PyC : 'M[R]_na) : R :=
  L - (2^-1 * qform PyI e - \sum_k ln (PyC k k)).

(** ** Inputs used in the examples *)

(** A partial SVD routine: it handles the diagonal matrices with
    non-negative entries and gives up on every other matrix. *)
Definition svd_diagonal (n : nat) (Q : 'M[R]_n) :
    result ('M[R]_n * 'rV[R]_n * 'M[R]_n) :=
  if is_diag_mx Q && [forall j, 0 <= Q j j]
  then Ok (1%:M, \row_j Q j j, 1%:M)
  else Raise LinAlgError.

(** A one-state model observed directly: [f] and [h] are the identity, the
    process noise has variance 1 and the measurement noise variance 4. *)
Definition example_model : Model 1 1 1 :=
  {| m_f := fun _ _ X => X;
     m_Q := fun _ _ => 1%:M;
     m_h := fun _ _ X => X;
     m_R := (2 * 2)%:M;
     m_dh_dq := fun _ _ _ => [ffun=> 0];
     m_dh_dx := fun _ _ _ => [ffun=> 0];
     m_dR_dq := [ffun=> 0] |}.

(** The same model with an output that does not depend on the state. *)
Definition silent_model : Model 1 1 1 :=
  {| m_f := fun _ _ X => X;
     m_Q := fun _ _ => 1%:M;
     m_h := fun _ _ _ => 0;
     m_R := (2 * 2)%:M;
     m_dh_dq := fun _ _ _ => [ffun=> 0];
     m_dh_dx := fun _ _ _ => [ffun=> 0];
     m_dR_dq := [ffun=> 0] |}.

(** The transform built by [CholeskyUnscentedTransform(1)]. *)
Definition example_ut : UnscentedTransform 1 :=
  UT 1 CholeskyUnscentedTransform 0.

(** The transform built by [SVDUnscentedTransform(1)]. *)
Definition example_svd_ut : UnscentedTransform 1 :=
  UT 1 SVDUnscentedTransform 0.

(** A work object with mean 0, variance 1, zero log-likelihood and zero
    derivatives. *)
Definition example_work :
    DTKalmanFilterWork 1 1 example_ut example_ut :=
  KWork 0 1%:M 0 None None None None None (Some 0) None
    (Some [ffun=> 0]) (Some [ffun=> 0]).

(** A measurement with its only entry present, and one with it missing. *)
Definition example_y : masked_array 1 := MaskedArray (const_mx 1) set0.
Definition missing_y : masked_array 1 := MaskedArray 0 setT.

(** A transform on two inputs with a centre point of weight [1 / 3]. *)
Definition centred_ut (cls : ut_class) : UnscentedTransform 2 := UT 2 cls 1.

(** Its work object for the mean [(1, 1)] and the identity covariance. *)
Definition centred_work (cls : ut_class) :
    UnscentedTransformWork 0 2 (nsigma (centred_ut cls)) 1 :=
  Work (centred_ut cls) (const_mx 1) 1%:M.

(** An affine map from two inputs to one output. *)
Definition example_A : 'M[R]_(1, 2) := const_mx 2.
Definition example_b : 'rV[R]_1 := const_mx 1.

(** A filter whose work object is a counter: [correct] adds the measurement
    and reports the sum, [predict] doubles the counter. *)
Definition counter_correct (w y : nat) : result (nat * (nat * nat)) :=
  Ok ((w + y)%N, ((w + y)%N, y)).
Definition counter_predict (w : nat) : result (nat * (nat * nat)) :=
  Ok (w.*2, (w.*2, 0%N)).

(** An [extract_subkeys] that finds no prefixed option. *)
Definition no_subkeys (opts : options) (prefix : string) : options := [::].

(** ** Further vocabulary *)

Section FilterStep.
Variables (W Y X P : Type).
Variable correct : W -> Y -> result (W * (X * P)).
Variable predict : W -> result (W * (X * P)).

(** One more step of a filter that has already run: [predict], then
    [correct] on the new measurement, whose result is appended. *)
Definition filter_step (y : Y) (run : W * (seq X * seq P)) :
    result (W * (seq X * seq P)) :=
  let! (w, _) := predict run.1 in
  let! (w, (xk, Pxk)) := correct w y in
  Ok (w, (rcons run.2.1 xk, rcons run.2.2 Pxk)).

End FilterStep.

(** ** Derivatives of the prediction *)

Section PredictionDiff.
Variables nq nx ny : nat.

(** The derivative methods of the model that [prediction_diff] calls; the
    time index they receive is [work.k - 1], an integer. *)
Record ModelDerivatives : Type := {
  m_df_dq : int -> forall m : nat, 'M[R]_(m, nx) ->
            {ffun 'I_nq -> 'M[R]_(m, nx)};
  m_df_dx : int -> forall m : nat, 'M[R]_(m, nx) ->
            {ffun 'I_m -> 'M[R]_(nx, nx)};
  m_dQ_dq : int -> 'rV[R]_nx -> {ffun 'I_nq -> 'M[R]_nx};
  m_dQ_dx : int -> 'rV[R]_nx -> {ffun 'I_nx -> 'M[R]_nx}
}.

Variable dmodel : ModelDerivatives.
Variables pred_ut corr_ut : UnscentedTransform nx.

(** The work object together with the two attributes that
    [prediction_diff] adds to it. *)
Record PredictionDiffWork : Type := PDWork {
  pd_work : DTKalmanFilterWork nq ny pred_ut corr_ut;
  prev_dx_dq : option {ffun 'I_nq -> 'rV[R]_nx};
  prev_dPx_dq : option {ffun 'I_nq -> 'M[R]_nx}
}.

(** [DTUnscentedPredictor.prediction_diff]. *)
Definition prediction_diff (work : DTKalmanFilterWork nq ny pred_ut corr_ut) :
    result PredictionDiffWork :=
  let k := (kw_k work)%:Z - 1 in
  let! x := getattr (kw_prev_x work) in
  let! utw := getattr (kw_pred_ut work) in
  let! dx_dq := getattr (kw_dx_dq work) in
  let! dPx_dq := getattr (kw_dPx_dq work) in
  let! (utw, (Df_Dq, DPf_Dq)) :=
    transform_diff pred_ut utw (m_df_dq dmodel k (m := nsigma pred_ut))
      (m_df_dx dmodel k (m := nsigma pred_ut)) dx_dq dPx_dq in
  let dQ_dq := m_dQ_dq dmodel k x in
  let dQ_dx := m_dQ_dx dmodel k x in
  let DQ_Dq : {ffun 'I_nq -> 'M[R]_nx} :=
    [ffun a => dQ_dq a + \sum_j dx_dq a 0 j *: dQ_dx j] in
  Ok (PDWork
        (KWork (kw_x work) (kw_Px work) (kw_k work) (kw_active work)
           (kw_prev_x work) (kw_prev_Px work) (Some utw) (kw_corr work)
           (kw_L work) (kw_PyCD work)
           (Some [ffun a => dx_dq a + Df_Dq a])
           (Some [ffun a => dPx_dq a + (DPf_Dq a + DQ_Dq a)]))
        (Some dx_dq) (Some dPx_dq)).

End PredictionDiff.

(** ** Further example inputs *)

(** Work objects of the one-input transforms, with one parameter and one
    output: mean 0 and variance 1, or variance 0. *)
Definition unit_work (self : UnscentedTransform 1) :
    UnscentedTransformWork 1 1 (nsigma self) 1 :=
  Work self 0 1%:M.

Definition flat_work (self : UnscentedTransform 1) :
    UnscentedTransformWork 1 1 (nsigma self) 1 :=
  Work self 0 0.

(** A filter work object whose covariance is zero. *)
Definition flat_filter_work : DTKalmanFilterWork 1 1 example_ut example_ut :=
  KWork 0 0 0 None None None None None None None None None.

(** Derivatives with respect to one parameter. *)
Definition example_dP : {ffun 'I_1 -> 'M[R]_1} := [ffun=> 1%:M].
Definition example_di : {ffun 'I_1 -> 'rV[R]_1} := [ffun=> const_mx 1].
Definition example_g : {ffun 'I_1 -> 'rV[R]_1} := [ffun=> 0].

(** The derivatives of [example_model]: the transition is the identity and
    nothing depends on the parameter. *)
Definition example_dmodel : ModelDerivatives 1 1 :=
  {| m_df_dq := fun _ m _ => [ffun a => rows m (example_g a)];
     m_df_dx := fun _ m _ => [ffun=> (1%:M)^T];
     m_dQ_dq := fun _ _ => [ffun=> 0];
     m_dQ_dx := fun _ _ => [ffun=> 0] |}.

(** A measurement whose only entry is masked, with a value left under the
    mask. *)
Definition masked_y : masked_array 1 := MaskedArray (const_mx 1) setT.

(** * Properties

    ** The Cholesky factorisation *)

Lemma sqrt_gt0 (a : R) : 0 < a -> 0 < sqrt a.
Proof. by move=> /RltP a0; apply/RltP/sqrt_lt_R0. Qed.

Lemma sqrt_sqr (a : R) : 0 <= a -> sqrt a * sqrt a = a.
Proof. by move=> /RleP a0; apply: sqrt_sqrt. Qed.

Lemma cholesky_cons n (Q : 'M[R]_(1 + n)) :
  cholesky Q =
    if Q 0 0 <= 0 then Raise LinAlgError
    else
      let r := sqrt (Q 0 0) in
      let row := r^-1 *: ursubmx Q in
      let! S' := cholesky (drsubmx Q - row^T *m row) in
      Ok (block_mx r%:M row 0 S').
Proof. by []. Qed.

Lemma cholesky_raises n (Q : 'M[R]_n) e :
  cholesky Q = Raise e -> e = LinAlgError.
Proof.
elim: n Q e => [|n IH] Q e //; rewrite (cholesky_cons (n := n)).
case: ifP => _ /=; first by case.
by case E: (cholesky _) => [S1|e1] //= [<-]; apply: IH E.
Qed.

Lemma cholesky_shape n (Q S : 'M[R]_n) :
  cholesky Q = Ok S -> upper_triangular S /\ forall i, 0 < S i i.
Proof.
elim: n Q S => [|n IH]; first by split; [apply/is_trig_mxP => - [] | case].
rewrite -[n.+1]/(1 + n)%N => Q S.
rewrite cholesky_cons /=; case: ifP => // /negbT.
rewrite -ltNge => a0.
case E: (cholesky _) => [S1|] //= [<-].
have [upS1 dS1] := IH _ _ E.
split.
  rewrite /upper_triangular tr_block_mx is_trig_block_mx // trmx0 eqxx /=.
  by rewrite mx11_is_trig.
move=> i; case: (split_ordP i) => j ->.
  by rewrite block_mxEul ord1 mxE eqxx mulr1n; apply: sqrt_gt0.
by rewrite block_mxEdr.
Qed.

Lemma symmetric_blocks n (Q : 'M[R]_(1 + n)) :
  symmetric Q ->
  [/\ dlsubmx Q = (ursubmx Q)^T, symmetric (drsubmx Q) &
      Q = block_mx (Q 0 0)%:M (ursubmx Q) (ursubmx Q)^T (drsubmx Q)].
Proof.
move=> symQ.
have dl : dlsubmx Q = (ursubmx Q)^T by rewrite trmx_ursub symQ.
have dr : symmetric (drsubmx Q) by rewrite /symmetric trmx_drsub symQ.
split=> //; rewrite -dl -[LHS]submxK; congr (block_mx _ _ _ _).
by rewrite [LHS]mx11_scalar !mxE lshift0.
Qed.

Lemma symmetric_schur n (C : 'M[R]_n) (row : 'rV[R]_n) :
  symmetric C -> symmetric (C - row^T *m row).
Proof.
by move=> symC; rewrite /symmetric linearB /= trmx_mul trmxK symC.
Qed.

Lemma cholesky_correct n (Q S : 'M[R]_n) :
  symmetric Q -> cholesky Q = Ok S -> S^T *m S = Q.
Proof.
elim: n Q S => [|n IH]; first by move=> Q S _ _; rewrite [LHS]flatmx0 [RHS]flatmx0.
rewrite -[n.+1]/(1 + n)%N => Q S symQ.
rewrite cholesky_cons /=; case: ifP => // /negbT.
rewrite -ltNge => a0.
case E: (cholesky _) => [S1|] //= [<-].
have [dl symC Qblock] := symmetric_blocks symQ.
have := IH _ _ (symmetric_schur _ symC) E.
set r := sqrt (Q 0 0); set row := r^-1 *: ursubmx Q => S1S1.
have r0 : r != 0 by rewrite gt_eqF // sqrt_gt0.
rewrite tr_block_mx mulmx_block trmx0 !mulmx0 !mul0mx !addr0 S1S1.
rewrite addrC subrK tr_scalar_mx -scalar_mxM sqrt_sqr ?ltW //.
rewrite mul_scalar_mx mul_mx_scalar /row (linearZ_LR trmx) /= !scalerA divff //.
rewrite !scale1r.
by rewrite [RHS]Qblock.
Qed.

Lemma mx11_tr (A : 'M[R]_1) : A^T = A.
Proof. by apply/matrixP => i j; rewrite mxE !ord1. Qed.

Lemma qform_block n (a : R) (b : 'rV[R]_n) (C : 'M[R]_n) (t : R)
    (w : 'rV[R]_n) :
  qform (block_mx a%:M b b^T C) (row_mx t%:M w) =
  a * t ^+ 2 + 2 * t * (w *m b^T) 0 0 + qform C w.
Proof.
rewrite /qform tr_row_mx mul_row_block mul_row_col !mulmxDl.
rewrite tr_scalar_mx -!scalar_mxM mul_mx_scalar -mulmxA mul_scalar_mx.
have -> : b *m w^T = (w *m b^T)^T by rewrite trmx_mul trmxK.
rewrite mx11_tr !mxE eqxx mulr1n expr2.
by ring.
Qed.

Lemma qform_schur n (C : 'M[R]_n) (row w : 'rV[R]_n) :
  qform (C - row^T *m row) w = qform C w - ((w *m row^T) 0 0) ^+ 2.
Proof.
rewrite /qform mulmxBr mulmxBl mxE [in RHS]expr2; congr (_ + _).
rewrite mxE mulmxA -mulmxA; congr (- _).
have -> : row *m w^T = (w *m row^T)^T by rewrite trmx_mul trmxK.
by rewrite mxE big_ord1 mx11_tr.
Qed.

Lemma row_mx11 n (v : 'rV[R]_(1 + n)) :
  v = row_mx (v 0 0)%:M (rsubmx v).
Proof.
rewrite -[LHS]hsubmxK; congr (row_mx _ _).
by rewrite [LHS]mx11_scalar !mxE lshift0.
Qed.

(** A successful factorisation certifies positive definiteness. *)
Lemma cholesky_posdef n (Q S : 'M[R]_n) :
  symmetric Q -> cholesky Q = Ok S -> posdef Q.
Proof.
elim: n Q S => [|n IH].
  by move=> Q S _ _ v; rewrite [v]thinmx0 eqxx.
rewrite -[n.+1]/(1 + n)%N => Q S symQ.
rewrite cholesky_cons /=; case: ifP => // /negbT.
rewrite -ltNge => a0.
case E: (cholesky _) => [S1|] //= _.
have [dl symC Qblock] := symmetric_blocks symQ.
have pdC := IH _ _ (symmetric_schur _ symC) E.
have r0 : sqrt (Q 0 0) != 0 by rewrite gt_eqF // sqrt_gt0.
move=> v v0; rewrite Qblock (row_mx11 v) qform_block.
set t := v 0 0; set w := rsubmx v; set a := Q 0 0 in a0 r0 pdC *.
set be := (w *m (ursubmx Q)^T) 0 0.
have sch : qform (drsubmx Q) w =
    qform (drsubmx Q - ((sqrt a)^-1 *: ursubmx Q)^T *m
                          ((sqrt a)^-1 *: ursubmx Q)) w + be ^+ 2 / a.
  have e : (sqrt a)^-1 ^+ 2 = a^-1 by rewrite exprVn expr2 sqrt_sqr // ltW.
  rewrite qform_schur linearZ /= -scalemxAr mxE -/be exprMn e.
  by rewrite [_^-1 * _]mulrC subrK.
have a_neq0 : a != 0 by rewrite gt_eqF.
have -> : a * t ^+ 2 + 2 * t * be + qform (drsubmx Q) w =
   a * (t + be / a) ^+ 2 +
   qform (drsubmx Q - ((sqrt a)^-1 *: ursubmx Q)^T *m
                          ((sqrt a)^-1 *: ursubmx Q)) w.
  by rewrite sch; field.
have [w0|w0] := eqVneq w 0.
  have t0 : t != 0.
    apply: contra_neq v0 => t0.
    by rewrite (row_mx11 v) -/t -/w t0 w0 -scalemx1 scale0r row_mx0.
  rewrite /be w0 /qform !mul0mx !mxE mul0r !addr0.
  by rewrite mulr_gt0 // exprn_even_gt0.
apply: ltr_wpDl; last exact: pdC.
by rewrite mulr_ge0 ?sqr_ge0 // ltW.
Qed.

(** A symmetric positive-definite matrix is always factorised. *)
Lemma cholesky_succeeds n (Q : 'M[R]_n) :
  symmetric Q -> posdef Q -> succeeds (cholesky Q).
Proof.
elim: n Q => [|n IH]; first by move=> Q _ _; exists Q.
rewrite -[n.+1]/(1 + n)%N => Q symQ pdQ.
have [dl symC Qblock] := symmetric_blocks symQ.
have a0 : 0 < Q 0 0.
  have /pdQ : row_mx (1%:M : 'M[R]_1) (0 : 'rV[R]_n) != 0.
    apply/eqP => /matrixP /(_ 0 (lshift n 0)).
    by rewrite row_mxEl !mxE eqxx; apply/eqP; rewrite oner_eq0.
  rewrite [in X in X -> _]Qblock qform_block mul0mx /qform !mul0mx !mxE.
  by rewrite expr1n mulr1 mulr0 !addr0.
rewrite cholesky_cons /= leNgt a0 /=.
set C1 := (_ - _).
have /(IH _ (symmetric_schur _ symC)) [S1 ->] : posdef C1; last by eexists.
move=> w w0.
set a := Q 0 0 in a0 C1 *.
have e : (sqrt a)^-1 ^+ 2 = a^-1 by rewrite exprVn expr2 sqrt_sqr // ltW.
set be := (w *m (ursubmx Q)^T) 0 0.
have /pdQ : row_mx (- (be / a))%:M w != 0.
  apply: contra_neq w0 => /matrixP vw; apply/matrixP => i j.
  by have := vw i (rshift 1 j); rewrite row_mxEr !mxE.
rewrite [in X in X -> _]Qblock qform_block -/be /C1 qform_schur.
rewrite linearZ /= -scalemxAr mxE -/be exprMn e.
have a_neq0 : a != 0 by rewrite gt_eqF.
congr (0 < _); rewrite -/a; field; exact: a_neq0.
Qed.

(** ** The unscented transform *)

Section UTLemmas.
Variable svd : forall n : nat, 'M[R]_n -> result ('M[R]_n * 'rV[R]_n * 'M[R]_n).
Variables nq ni : nat.
Variable self : UnscentedTransform ni.

Local Notation kap := (kappa self).
Local Notation ns := (nsigma self).
Local Notation w0 := (2^-1 / (ni%:R + kap)).
Local Notation wc := (kap / (ni%:R + kap)).


Lemma weights_blocks :
  weights self =
  row_mx (const_mx w0) (row_mx (const_mx w0) (const_mx wc)).
Proof.
apply/rowP => k; rewrite mxE.
case: (split_ordP k) => j ->; rewrite ?row_mxEl ?row_mxEr.
  rewrite mxE /nsigma /=; case: (kap != 0) => //=.
  by rewrite addn1 addnS /= ltn_eqF // (leq_trans (ltn_ord j)) // leq_addr.
case: (split_ordP j) => i ->; rewrite ?row_mxEl ?row_mxEr mxE /nsigma /=.
  case: (kap != 0) => //=.
  by rewrite addn1 addnS /= eqn_add2l ltn_eqF.
case: (kap != 0) i => [i|[]//] /=.
by rewrite ord1 addn1 addnS /= addn0 eqxx.
Qed.

Lemma rowsE (m n : nat) (v : 'rV[R]_n) k j : rows m v k j = v 0 j.
Proof. by rewrite mxE. Qed.

Lemma sum_const_row (n : nat) (c : R) :
  \sum_(k < n) (const_mx c : 'rV[R]_n) 0 k = n%:R * c.
Proof.
under eq_bigr => k _ do rewrite mxE.
by rewrite sumr_const card_ord -mulr_natl.
Qed.

Lemma sum_row_mx (m n : nat) (u : 'rV[R]_m) (v : 'rV[R]_n) :
  \sum_k (row_mx u v) 0 k = \sum_k u 0 k + \sum_k v 0 k.
Proof.
rewrite big_split_ord /=; congr (_ + _); apply: eq_bigr => k _.
  by rewrite row_mxEl.
by rewrite row_mxEr.
Qed.

Hypothesis nk0 : ni%:R + kap != 0.

Lemma weights_sum : \sum_k weights self 0 k = 1.
Proof.
rewrite weights_blocks !sum_row_mx !sum_const_row.
have [k0|k0] /= := eqVneq kap 0; last by rewrite mul1r; field.
move: nk0; rewrite k0 addr0 !mul0r addr0 => n0.
by field.
Qed.

Lemma weights_rows (n : nat) (v : 'rV[R]_n) :
  weights self *m rows ns v = v.
Proof.
apply/rowP => j; rewrite mxE.
under eq_bigr => k _ do rewrite rowsE.
by rewrite -mulr_suml weights_sum mul1r.
Qed.

Lemma weights_deviations (Sm : 'M[R]_ni) :
  weights self *m deviations self Sm = 0.
Proof.
rewrite weights_blocks /deviations !mul_row_col mulmxN mulmx0 addr0.
by rewrite subrr.
Qed.

Lemma diag_const (n : nat) (c : R) : diag_mx (const_mx c : 'rV[R]_n) = c%:M.
Proof. by apply/matrixP => i j; rewrite !mxE. Qed.

Lemma weighted_deviations (n : nat) (Sm : 'M[R]_ni) (B : 'M[R]_(ns, n)) :
  weighted_outer (deviations self Sm) B (weights self) =
  w0 *: (Sm^T *m (usubmx B - usubmx (dsubmx B))).
Proof.
rewrite /weighted_outer /deviations weights_blocks -[in LHS](vsubmxK B).
rewrite -[in LHS](vsubmxK (dsubmx B)) !tr_col_mx !diag_mx_row.
rewrite !mul_row_block !mul_row_col !trmx0 !mulmx0 !mul0mx !addr0 !add0r.
rewrite mul_row_col mul0mx addr0 !diag_const !mul_mx_scalar.
by rewrite linearN /= scalerN mulNmx -!scalemxAl -scalerBr -mulmxBr.
Qed.

Lemma deviations_cov (Sm : 'M[R]_ni) :
  weighted_outer (deviations self Sm) (deviations self Sm) (weights self) =
  (ni%:R + kap)^-1 *: (Sm^T *m Sm).
Proof.
rewrite weighted_deviations /deviations col_mxKu col_mxKd col_mxKu.
rewrite opprK -mulr2n -scaler_nat mulmxE -scalerAr scalerA; congr (_ *: _).
by field.
Qed.


Section Transform.
Variable no : nat.
Notation work_t := (UnscentedTransformWork nq ni ns no).

Lemma ut_sqrt_frame (work w1 : work_t) Q Sm :
  ut_sqrt svd self work Q = Ok (w1, Sm) ->
  [/\ ut_i w1 = ut_i work, ut_Pi w1 = ut_Pi work & chol_S (ut_chol w1) = Some Sm].
Proof.
rewrite /ut_sqrt; case: (ut_class_of self).
  by rewrite /decompose; case: (cholesky Q) => //= S1 [<- <-].
by case: (svd Q) => //= -[[U s] VT] [<- <-].
Qed.

Lemma sigma_pointsE (work w1 : work_t) Sm :
  ut_sqrt svd self work ((ni%:R + kap) *: ut_Pi work) = Ok (w1, Sm) ->
  exists w2,
    sigma_points svd self work =
      Ok (w2, deviations self Sm + rows ns (ut_i work)) /\
    [/\ ut_i w2 = ut_i work, ut_Pi w2 = ut_Pi work,
        chol_S (ut_chol w2) = Some Sm,
        i_dev w2 = Some (deviations self Sm) &
        i_sigma w2 = Some (deviations self Sm + rows ns (ut_i work))].
Proof.
move=> e; have [ei ePi eS] := ut_sqrt_frame e.
by rewrite /sigma_points e /= ei ePi; eexists; split; [reflexivity|split].
Qed.

Lemma sigma_points_inv (work w2 : work_t) sig :
  sigma_points svd self work = Ok (w2, sig) ->
  exists w1 Sm,
    ut_sqrt svd self work ((ni%:R + kap) *: ut_Pi work) = Ok (w1, Sm) /\
    sig = deviations self Sm + rows ns (ut_i work).
Proof.
rewrite /sigma_points.
case e: (ut_sqrt _ _ _ _) => [[w1 Sm]|] //= [_ <-].
by have [-> _ _] := ut_sqrt_frame e; exists w1, Sm.
Qed.


Lemma transformE (work w1 : work_t) Sm f :
  ut_sqrt svd self work ((ni%:R + kap) *: ut_Pi work) = Ok (w1, Sm) ->
  let sig := deviations self Sm + rows ns (ut_i work) in
  let o := weights self *m f sig in
  let odev := f sig - rows ns o in
  exists w3,
    transform svd self work f =
      Ok (w3, (o, weighted_outer odev odev (weights self))) /\
    [/\ ut_i w3 = ut_i work, ut_Pi w3 = ut_Pi work,
        i_dev w3 = Some (deviations self Sm), o_dev w3 = Some odev &
        i_sigma w3 = Some sig].
Proof.
move=> /sigma_pointsE [w2 [e [ei ePi eS edev esig]]] /=.
by rewrite /transform e /= ei ePi edev esig; eexists; split; [reflexivity|split].
Qed.

Lemma transform_inv (work w3 : work_t) f r :
  transform svd self work f = Ok (w3, r) ->
  exists w1 Sm,
    ut_sqrt svd self work ((ni%:R + kap) *: ut_Pi work) = Ok (w1, Sm).
Proof.
rewrite /transform; case e: (sigma_points _ _ _) => [[w2 sig]|] //= _.
by have [w1 [Sm [e1 _]]] := sigma_points_inv e; exists w1, Sm.
Qed.

Lemma rows_mul (m n p : nat) (v : 'rV[R]_n) (B : 'M[R]_(n, p)) :
  rows m v *m B = rows m (v *m B).
Proof.
apply/matrixP => k j; rewrite !mxE; apply: eq_bigr => l _.
by rewrite rowsE.
Qed.

Lemma rowsD (m n : nat) (u v : 'rV[R]_n) : rows m (u + v) = rows m u + rows m v.
Proof. by apply/matrixP => k j; rewrite !mxE. Qed.

(** C3: for an affine map [f z = A z + b], a transform whose square root
    satisfies [S^T S = (ni + kappa) Pi] returns exactly the mean
    [A i + b] and the covariance [A Pi A^T], and stores them on the work
    object; the transform may be of either class. *)
Theorem transform_affine_exact (A : 'M[R]_(no, ni)) (b : 'rV[R]_no)
    (work w1 : work_t) (Sm : 'M[R]_ni) :
  ut_sqrt svd self work ((ni%:R + kap) *: ut_Pi work) = Ok (w1, Sm) ->
  Sm^T *m Sm = (ni%:R + kap) *: ut_Pi work ->
  exists work',
    transform svd self work (affine_map A b) =
      Ok (work', (ut_i work *m A^T + b, A *m ut_Pi work *m A^T)) /\
    ut_o work' = Some (ut_i work *m A^T + b) /\
    ut_Po work' = Some (A *m ut_Pi work *m A^T).
Proof.
move=> e SS.
have [w2 [es [ei ePi eS edev esig]]] := sigma_pointsE e.
set sig := deviations self Sm + rows ns (ut_i work) in es esig.
have eo : weights self *m affine_map A b sig = ut_i work *m A^T + b.
  rewrite /affine_map mulmxDr weights_rows mulmxA mulmxDr.
  by rewrite weights_deviations add0r weights_rows.
have edev' : affine_map A b sig - rows ns (ut_i work *m A^T + b) =
    deviations self Sm *m A^T.
  rewrite /affine_map /sig mulmxDl rows_mul rowsD.
  by rewrite -[_ + _ + rows ns b]addrA addrK.
have ePo : weighted_outer (deviations self Sm *m A^T)
    (deviations self Sm *m A^T) (weights self) = A *m ut_Pi work *m A^T.
  rewrite /weighted_outer trmx_mul trmxK -!mulmxA.
  rewrite [_^T *m (_ *m (_ *m _))]mulmxA [_^T *m _ *m _]mulmxA.
  have := deviations_cov Sm; rewrite /weighted_outer => ->.
  by rewrite SS scalerA mulVf // scale1r mulmxA.
rewrite /transform es /= eo edev' ePo.
by eexists; split; [reflexivity|split].
Qed.



End Transform.
End UTLemmas.

Section Construction.
Variable svd : forall n : nat, 'M[R]_n -> result ('M[R]_n * 'rV[R]_n * 'M[R]_n).
Variables nq ni no : nat.



End Construction.

(** ** Quadratic forms and the covariance updates *)

(** *** Quadratic forms *)

Lemma qformD n (A B : 'M[R]_n) v : qform (A + B) v = qform A v + qform B v.
Proof. by rewrite /qform mulmxDr mulmxDl mxE. Qed.

Lemma qformB n (A B : 'M[R]_n) v : qform (A - B) v = qform A v - qform B v.
Proof. by rewrite /qform mulmxBr mulmxBl !mxE. Qed.

Lemma qform_congr m n (A : 'M[R]_n) (B : 'M[R]_(m, n)) (v : 'rV[R]_m) :
  qform (B *m A *m B^T) v = qform A (v *m B).
Proof. by rewrite /qform trmx_mul !mulmxA. Qed.

Lemma psdD n (A B : 'M[R]_n) : psd A -> psd B -> psd (A + B).
Proof. by move=> pA pB v; rewrite qformD addr_ge0. Qed.

Lemma symmetricD n (A B : 'M[R]_n) :
  symmetric A -> symmetric B -> symmetric (A + B).
Proof. by rewrite /symmetric linearD /= => -> ->. Qed.


Lemma symmetric_congr m n (A : 'M[R]_n) (B : 'M[R]_(m, n)) :
  symmetric A -> symmetric (B *m A *m B^T).
Proof. by rewrite /symmetric !trmx_mul trmxK mulmxA => ->. Qed.

Lemma qform_diag n (w v : 'rV[R]_n) :
  qform (diag_mx w) v = \sum_k w 0 k * v 0 k ^+ 2.
Proof.
rewrite /qform mul_mx_diag mxE; apply: eq_bigr => k _.
by rewrite !mxE; ring.
Qed.

Lemma psd_diag n (w : 'rV[R]_n) : (forall k, 0 <= w 0 k) -> psd (diag_mx w).
Proof.
move=> w0 v; rewrite qform_diag; apply: sumr_ge0 => k _.
by rewrite mulr_ge0 // sqr_ge0.
Qed.

Lemma symmetric_diag n (w : 'rV[R]_n) : symmetric (diag_mx w).
Proof. exact: tr_diag_mx. Qed.

Lemma weighted_outer_sym m n (X : 'M[R]_(m, n)) (w : 'rV[R]_m) :
  symmetric (weighted_outer X X w).
Proof.
rewrite /weighted_outer -{2}[X]trmxK; apply: symmetric_congr.
exact: symmetric_diag.
Qed.

Lemma weighted_outer_psd m n (X : 'M[R]_(m, n)) (w : 'rV[R]_m) :
  (forall k, 0 <= w 0 k) -> psd (weighted_outer X X w).
Proof.
move=> w0 v; rewrite /weighted_outer -{2}[X]trmxK qform_congr.
exact: psd_diag.
Qed.

(** A principal submatrix of a symmetric positive semi-definite matrix. *)
Lemma mxsub_rows m n p (f : 'I_m -> 'I_n) (A : 'M[R]_(n, p)) :
  mxsub f id 1%:M *m A = mxsub f id A.
Proof.
apply/matrixP => i j; rewrite !mxE (bigD1 (f i)) //= !mxE eqxx mul1r.
rewrite big1 ?addr0 // => k kfi.
by rewrite !mxE eq_sym (negbTE kfi) mul0r.
Qed.

Lemma mxsub_congr m n (f : 'I_m -> 'I_n) (A : 'M[R]_n) :
  mxsub f f A = mxsub f id 1%:M *m A *m (mxsub f id 1%:M)^T.
Proof.
rewrite mxsub_rows; apply/matrixP => i j.
rewrite !mxE (bigD1 (f j)) //= !mxE eqxx mulr1.
rewrite big1 ?addr0 // => k kfj.
by rewrite !mxE eq_sym (negbTE kfj) mulr0.
Qed.

Lemma mxsub_sym m n (f : 'I_m -> 'I_n) (A : 'M[R]_n) :
  symmetric A -> symmetric (mxsub f f A).
Proof. by move=> sA; rewrite mxsub_congr; apply: symmetric_congr. Qed.

Lemma mxsub_psd m n (f : 'I_m -> 'I_n) (A : 'M[R]_n) :
  psd A -> psd (mxsub f f A).
Proof. by move=> pA v; rewrite mxsub_congr qform_congr. Qed.

(** *** The covariance update *)


Lemma weights_ge0 ni (self : UnscentedTransform ni) :
  0 <= kappa self -> ni%:R + kappa self != 0 ->
  forall k, 0 <= weights self 0 k.
Proof.
move=> k0 nk0 k.
have pos : 0 < ni%:R + kappa self.
  by rewrite lt_def nk0 addr_ge0 // ler0n.
by rewrite mxE; case: ifP => _; rewrite divr_ge0 ?invr_ge0 ?ler0n // ltW.
Qed.

Lemma inv_correct n (A B : 'M[R]_n) : inv A = Ok B -> B *m A = 1%:M.
Proof. by rewrite /inv; case: ifP => // uA [<-]; rewrite mulVmx. Qed.

Section UKFInvariant.
Variable svd : forall n : nat, 'M[R]_n -> result ('M[R]_n * 'rV[R]_n * 'M[R]_n).
Variables nq nx ny : nat.
Variable model : Model nq nx ny.
Variables pred_ut corr_ut : UnscentedTransform nx.

Notation work_t := (DTKalmanFilterWork nq ny pred_ut corr_ut).


Lemma psd_scale n (c : R) (A : 'M[R]_n) : 0 <= c -> psd A -> psd (c *: A).
Proof.
move=> c0 pA v; rewrite /qform -scalemxAr -scalemxAl mxE.
exact: mulr_ge0 (pA v).
Qed.

Lemma symmetric_scale n (c : R) (A : 'M[R]_n) :
  symmetric A -> symmetric (c *: A).
Proof. by rewrite /symmetric linearZ /= => ->. Qed.


End UKFInvariant.

(** ** The square root through the singular value decomposition *)

(** *** Singular value decompositions of covariance matrices *)

Lemma sum_sqr_eq0 n (u : 'rV[R]_n) : (u *m u^T) 0 0 = 0 -> u = 0.
Proof.
rewrite mxE => /eqP; rewrite psumr_eq0 => [j _|/allP z].
  by rewrite mxE -expr2 sqr_ge0.
apply/rowP => j; have := z j; rewrite mem_index_enum mxE -expr2 sqrf_eq0.
by move=> /(_ isT) /eqP ->; rewrite mxE.
Qed.

Lemma diag_root n (s u : 'rV[R]_n) :
  (forall j, 0 <= s 0 j) -> qform (diag_mx s) u = 0 -> u *m diag_mx s = 0.
Proof.
move=> s0; rewrite qform_diag => /eqP.
rewrite psumr_eq0 => [j _|/allP z]; first by rewrite mulr_ge0 ?sqr_ge0.
apply/rowP => j; rewrite mul_mx_diag !mxE.
have := z j; rewrite mem_index_enum => /(_ isT).
by rewrite mulf_eq0 sqrf_eq0 => /orP [] /eqP ->; rewrite ?mulr0 ?mul0r.
Qed.

Lemma diag_sq_comm n (M : 'M[R]_n) (s : 'rV[R]_n) :
  (forall j, 0 <= s 0 j) ->
  M *m (diag_mx s *m diag_mx s) = diag_mx s *m diag_mx s *m M ->
  M *m diag_mx s = diag_mx s *m M.
Proof.
move=> s0 c2; apply/matrixP => i j.
have := congr1 (fun A : 'M[R]_n => A i j) c2.
rewrite mulmx_diag !mul_mx_diag !mul_diag_mx !mxE.
have [-> _|Mij e] := eqVneq (M i j) 0; first by rewrite mul0r mulr0.
suff -> : s 0 j = s 0 i by rewrite mulrC.
apply/eqP; rewrite -(@eqrXn2 _ 2) // !expr2; apply/eqP.
by apply: (mulfI Mij); rewrite e; ring.
Qed.

(** A symmetric positive semi-definite matrix whose square is the square
    of a non-negative diagonal matrix is that diagonal matrix. *)
Lemma psd_sq_root n (M : 'M[R]_n) (s : 'rV[R]_n) :
  (forall j, 0 <= s 0 j) -> symmetric M -> psd M ->
  M *m M = diag_mx s *m diag_mx s -> M = diag_mx s.
Proof.
move=> s0 symM psdM MM.
have comm : M *m diag_mx s = diag_mx s *m M.
  by apply: diag_sq_comm => //; rewrite -MM mulmxA.
have DP : (M - diag_mx s) *m (M + diag_mx s) = 0.
  by rewrite mulmxBl !mulmxDr MM comm [X in _ - X]addrC subrr.
have symD : (M - diag_mx s)^T = M - diag_mx s.
  by rewrite linearB /= symM tr_diag_mx.
apply/eqP; rewrite -subr_eq0; apply/eqP.
move: DP symD; move eD: (M - diag_mx s) => D DP symD.
apply/row_matrixP => i; rewrite row0 rowE.
move: (delta_mx 0 i) => v.
have uP : v *m D *m (M + diag_mx s) = 0 by rewrite -mulmxA DP mulmx0.
have q0 : qform M (v *m D) + qform (diag_mx s) (v *m D) = 0.
  by rewrite -qformD /qform uP mul0mx mxE.
have qS : qform (diag_mx s) (v *m D) = 0.
  have h1 := psdM (v *m D); have h2 := psd_diag s0 (v *m D).
  by move: q0 h1 h2; move: (qform M _) (qform (diag_mx s) _) => a b; lra.
have uS : v *m D *m diag_mx s = 0 by apply: diag_root.
have uM : v *m D *m M = 0 by move: uP; rewrite mulmxDr uS addr0.
have DD : v *m D *m D = 0 by rewrite -{2}eD mulmxBr uM uS subrr.
by apply: sum_sqr_eq0; rewrite trmx_mul symD mulmxA DD mul0mx mxE.
Qed.

Lemma svd_psd_root n (Q U VT : 'M[R]_n) (s : 'rV[R]_n) :
  is_svd Q U s VT -> symmetric Q -> psd Q -> U *m diag_mx s *m U^T = Q.
Proof.
case=> UTU VVT s0 eQ symQ psdQ.
have UUT : U *m U^T = 1%:M by apply: mulmx1C.
have eM : U^T *m Q *m U = diag_mx s *m (VT *m U).
  by rewrite -eQ !mulmxA UTU mul1mx -mulmxA.
have ZZT : (VT *m U) *m (VT *m U)^T = 1%:M.
  by rewrite trmx_mul mulmxA -[VT *m U *m _]mulmxA UUT mulmx1.
have MT : U^T *m Q *m U = U^T *m Q *m (U^T)^T by rewrite trmxK.
have symM : symmetric (U^T *m Q *m U) by rewrite MT; apply: symmetric_congr.
have psdM : psd (U^T *m Q *m U) by move=> v; rewrite MT qform_congr.
have MM : (U^T *m Q *m U) *m (U^T *m Q *m U) = diag_mx s *m diag_mx s.
  rewrite -{2}symM eM trmx_mul mulmxA -[diag_mx s *m _ *m _]mulmxA ZZT.
  by rewrite mulmx1 tr_diag_mx.
have MS := psd_sq_root s0 symM psdM MM.
by rewrite -MS !mulmxA UUT mul1mx -mulmxA UUT mulmx1.
Qed.

Section SqrtExact.
Variable svd : forall n : nat, 'M[R]_n -> result ('M[R]_n * 'rV[R]_n * 'M[R]_n).
Variables nq nx : nat.

Lemma diag_sqrt_sq n (s : 'rV[R]_n) :
  (forall j, 0 <= s 0 j) ->
  diag_mx (map_mx sqrt s) *m diag_mx (map_mx sqrt s) = diag_mx s.
Proof.
move=> s0; rewrite mulmx_diag; congr diag_mx.
by apply/rowP => j; rewrite !mxE sqrt_sqr.
Qed.

Lemma ut_sqrt_exact (self : UnscentedTransform nx) :
  svd_contract svd -> sqrt_exact svd nq self.
Proof.
move=> svdP no w w1 Q Sm symQ psdQ; rewrite /ut_sqrt.
case: (ut_class_of self).
  rewrite /decompose; case e: (cholesky Q) => [S1|] //= [_ <-].
  exact: cholesky_correct e.
case e: (svd Q) => [[[U s] VT]|] //= [_ <-].
have svdQ := svdP _ _ _ _ _ e; have [_ _ s0 _] := svdQ.
rewrite trmxK trmx_mul tr_diag_mx mulmxA -[U *m _ *m _]mulmxA diag_sqrt_sq //.
exact: svd_psd_root svdQ symQ psdQ.
Qed.

End SqrtExact.

(** ** The corrector *)

(** *** Logarithms and determinants *)

Lemma ln_prod (I : Type) (r : seq I) (F : I -> R) :
  (forall k, 0 < F k) ->
  0 < \prod_(k <- r) F k /\ ln (\prod_(k <- r) F k) = \sum_(k <- r) ln (F k).
Proof.
move=> F0; elim: r => [|k r [p0 IH]].
  by rewrite !big_nil; split=> //; apply: ln_1.
rewrite !big_cons; split; first exact: mulr_gt0.
by rewrite -IH; apply: ln_mult; apply/RltP.
Qed.

Lemma ln_sqr (x : R) : 0 < x -> ln (x ^+ 2) = 2 * ln x.
Proof.
move=> x0; rewrite expr2 mulr2n mulrDl mul1r.
by apply: ln_mult; apply/RltP.
Qed.

Lemma ln_gt0 (x : R) : 1 < x -> 0 < ln x.
Proof.
move=> /RltP x1; apply/RltP; rewrite -[0]/(IZR Z0) -ln_1.
exact: ln_increasing Rlt_0_1 x1.
Qed.

(** The sum of the logarithms of the diagonal of a Cholesky factor is half
    the logarithm of the determinant of the factorised matrix. *)
Lemma cholesky_logdet n (Q Sm : 'M[R]_n) :
  cholesky Q = Ok Sm ->
  \sum_k ln (Sm k k) = ln (\det (Sm^T *m Sm)) / 2.
Proof.
move=> /cholesky_shape [upS dS].
have detS : \det Sm = \prod_k Sm k k.
  rewrite -det_tr (det_trig upS); apply: eq_bigr => k _.
  by rewrite mxE.
have [p0 e] := ln_prod (index_enum _) dS.
rewrite det_mulmx det_tr -expr2 detS ln_sqr // e.
by rewrite mulrC mulKf // pnatr_eq0.
Qed.

Section Corrector.
Variable svd : forall n : nat, 'M[R]_n -> result ('M[R]_n * 'rV[R]_n * 'M[R]_n).
Variables nq nx ny : nat.
Variable model : Model nq nx ny.
Variables pred_ut corr_ut : UnscentedTransform nx.

Notation work_t := (DTKalmanFilterWork nq ny pred_ut corr_ut).

Lemma correction_diff_raises (work : work_t) (active : {set 'I_ny}) :
  kw_active work = Some active -> active != set0 ->
  raises (correction_diff model work).
Proof.
rewrite /correction_diff => -> /negbTE /= ->.
case: (kw_corr work) => [cd|] /=; last by eexists.
case: (kw_dx_dq work) => [dx|] /=; last by eexists.
case: (kw_dPx_dq work) => [dP|] /=; last by eexists.
case: eqP => [e|_]; last by eexists.
case: (transform_diff _ _ _ _ _ _) => [[utw [a b]]|err] /=; last by eexists.
by case: (crosscov_diff _ _) => [c|err] /=; eexists.
Qed.


(** The work object left by a correction that had active outputs. *)
Lemma correctE (work w' : work_t) (y : masked_array ny) r :
  ma_mask y != setT ->
  correct svd model work y = Ok (w', r) ->
  let active := ~: ma_mask y in
  let sel := active_index active in
  let h_fun := fun X : 'M[R]_(nsigma corr_ut, nx) =>
                 colsub sel (m_h model (kw_k work) X) in
  exists utw h Ph Pxh PyC PyCI,
    let Py := Ph + mxsub sel sel (m_R model) in
    let PyI := PyCI *m PyCI^T in
    let e := colsub sel (ma_data y) - h in
    let K := Pxh *m PyI in
    [/\ transform svd corr_ut (Work corr_ut (kw_x work) (kw_Px work)) h_fun =
          Ok (utw, (h, Ph)),
        crosscov corr_ut utw = Ok Pxh,
        cholesky Py = Ok PyC,
        inv PyC = Ok PyCI &
        w' = KWork (kw_x work + e *m K^T) (kw_Px work - K *m Py *m K^T)
               (kw_k work) (Some active) (Some (kw_x work))
               (Some (kw_Px work)) (kw_pred_ut work)
               (Some (CorrData utw (CholWork (Some PyC) None None None)
                        e Pxh PyI PyC PyCI K))
               (kw_L work) (kw_PyCD work) (kw_dx_dq work) (kw_dPx_dq work)].
Proof.
move=> /negbTE my; rewrite /correct my /=.
case e1: (transform _ _ _ _) => [[utw [h Ph]]|] //=.
case e2: (crosscov _ _) => [Pxh|] //=.
rewrite /decompose; case e3: (cholesky _) => [PyC|] //=.
case e4: (inv _) => [PyCI|] //= [<- _].
by exists utw, h, Ph, Pxh, PyC, PyCI; split.
Qed.

Lemma update_likelihood_active (work : work_t) (active : {set 'I_ny})
    (cd : CorrectionData nq corr_ut) (L : R) :
  kw_active work = Some active -> active != set0 ->
  kw_corr work = Some cd -> kw_L work = Some L ->
  let PyCD := [seq cd_PyC cd k k | k <- enum 'I_(cd_na cd)] in
  update_likelihood work =
    Ok (KWork (kw_x work) (kw_Px work) (kw_k work) (kw_active work)
          (kw_prev_x work) (kw_prev_Px work) (kw_pred_ut work) (kw_corr work)
          (Some (L - 2^-1 * qform (cd_PyI cd) (cd_e cd)
                   - \sum_k ln (cd_PyC cd k k)))
          (Some PyCD) (kw_dx_dq work) (kw_dPx_dq work)).
Proof.
move=> ea /negbTE a0 ec eL; rewrite /update_likelihood ea /= a0 ec eL /=.
by rewrite big_map big_enum.
Qed.

End Corrector.

(** ** The filter driver *)

Section FilterDriver.
Variables (W Y X P : Type).
Variable correct : W -> Y -> result (W * (X * P)).
Variable predict : W -> result (W * (X * P)).

Notation lcorrect := (logged_correct correct).
Notation lpredict := (logged_predict predict).

Lemma alternate_cons r (rs : seq (X * P)) :
  ~~ nilp rs ->
  alternate (r :: rs) = CorrectCall r.1 r.2 :: PredictCall :: alternate rs.
Proof. by case: rs. Qed.

Lemma count_alternate (rs : seq (X * P)) :
  count (@is_correct_call X P) (alternate rs) = size rs /\
  count (@is_predict_call X P) (alternate rs) = (size rs).-1.
Proof.
elim: rs => [//|r [|r' rs] [IH1 IH2]] //.
rewrite alternate_cons //; move: IH1 IH2; move: (alternate _) => l /= -> ->.
by [].
Qed.

Lemma filter_loop_log (N : nat) (ys : seq Y) k w log xs Ps w' log' xs' Ps' :
  (k + size ys = N)%N ->
  filter_loop lcorrect lpredict N ys k (w, log) xs Ps =
    Ok ((w', log'), (xs', Ps')) ->
  exists rs,
    [/\ size rs = size ys, log' = log ++ alternate rs,
        xs' = xs ++ [seq r.1 | r <- rs], Ps' = Ps ++ [seq r.2 | r <- rs] &
        filter_loop correct predict N ys k w xs Ps = Ok (w', (xs', Ps'))].
Proof.
elim: ys k w log xs Ps => [|yk ys IH] k w log xs Ps kN /=.
  by case=> <- <- <- <-; exists [::]; rewrite !cats0.
have kN1 : (k < N - 1)%N = ~~ nilp ys.
  rewrite -kN /= addnS subn1 /= -[X in (X < _)%N]addn0 ltn_add2l.
  by case: ys {IH kN}.
rewrite /logged_correct /= kN1.
case ec: (correct w yk) => [[w1 [xk Pxk]]|] //=.
case: ys IH kN {kN1} => [|y2 ys] IH kN /=.
  case=> <- <- <- <-; exists [:: (xk, Pxk)].
  by rewrite /= -!cats1.
rewrite /logged_predict /=.
case ep: (predict w1) => [[w2 r2]|] //= /IH [|rs [sz -> -> -> e5]].
  by rewrite addSnnS.
exists ((xk, Pxk) :: rs); split=> /=.
- by rewrite sz.
- by rewrite -!cats1 -!catA /=; case: rs sz {e5}.
- by rewrite -cats1 -catA.
- by rewrite -cats1 -catA.
- exact: e5.
Qed.

Lemma filter_loop_total (N : nat) (ys : seq Y) k w xs Ps :
  (forall w yk, succeeds (correct w yk)) -> (forall w, succeeds (predict w)) ->
  succeeds (filter_loop correct predict N ys k w xs Ps).
Proof.
move=> cT pT; elim: ys k w xs Ps => [|yk ys IH] k w xs Ps /=.
  by eexists.
have [[w1 [xk Pxk]] ->] /= := cT w yk.
case: ifP => _ /=; last exact: IH.
by have [[w2 r2] ->] /= := pT w1; apply: IH.
Qed.

End FilterDriver.

(** ** Derivatives of the Cholesky factor *)

(** *** The index pairs of the lower triangle *)

Section TrilIndices.
Variable n : nat.

Lemma enum_ord_pairwise : pairwise (fun i j : 'I_n => (i < j)%N) (enum 'I_n).
Proof.
have := iota_ltn_sorted 0 n; rewrite -val_enum_ord sorted_map.
by rewrite sorted_pairwise //; apply: ltn_trans.
Qed.

Lemma tril_indices_le (pq : 'I_n * 'I_n) :
  pq \in tril_indices n -> (pq.2 <= pq.1)%N.
Proof.
by move=> /flatten_mapP [p _ /mapP [q]]; rewrite mem_filter => /andP [le _] ->.
Qed.

Lemma tril_indices_pairwise :
  pairwise (row_major (n:=n)) (tril_indices n).
Proof.
rewrite /tril_indices; set row := fun p : 'I_n => _.
elim: (enum 'I_n) enum_ord_pairwise => [//|p ps IH].
rewrite pairwise_cons => /andP [pps /IH {}IH] /=.
rewrite pairwise_cat IH andbT; apply/andP; split.
  apply/allrelP => a b /mapP [q _ ->] /flatten_mapP [p' p'ps /mapP [q' _ ->]].
  by rewrite /row_major /= (allP pps).
rewrite pairwise_map; apply: sub_pairwise (pairwise_filter _ enum_ord_pairwise).
by move=> q q' qq'; rewrite /row_major /= eqxx qq' orbT.
Qed.

Lemma tril_indices_mem (p q : 'I_n) :
  (q <= p)%N -> (p, q) \in tril_indices n.
Proof.
move=> qp; apply/flatten_mapP; exists p; first by rewrite mem_enum.
by apply/mapP; exists q => //; rewrite mem_filter qp mem_enum.
Qed.

End TrilIndices.

(** *** The linear system of [diff] *)

Section DiffSystem.
Variable n : nat.
Variable Sm : 'M[R]_n.
Hypothesis upS : upper_triangular Sm.
Hypothesis dS : forall i, Sm i i != 0.

Let t := tril_indices n.
Let ij := tnth (in_tuple t).

Lemma ij_mem a : ij a \in t.
Proof. exact: mem_tnth. Qed.

Lemma A_tril_entry a b :
  A_tril_of Sm a b =
  (if (ij b).1 == (ij a).1 then Sm (ij b).2 (ij a).2 else 0) +
  (if (ij b).1 == (ij a).2 then Sm (ij b).2 (ij a).1 else 0).
Proof.
rewrite mxE /diff_A.
have -> : (ij a).1 \in unzip1 t by apply: map_f; apply: ij_mem.
have -> : (ij a).2 \in unzip2 t by apply: map_f; apply: ij_mem.
by rewrite mem_enum.
Qed.

Lemma upper_entry (r c : 'I_n) : (c < r)%N -> Sm r c = 0.
Proof.
by move=> cr; have /is_trig_mxP /(_ c r cr) := upS; rewrite mxE.
Qed.

Lemma A_tril_trig : is_trig_mx (A_tril_of Sm).
Proof.
apply/is_trig_mxP => a b ab; rewrite A_tril_entry.
have /(pairwiseP (ij a)) /(_ a b (ltn_ord a) (ltn_ord b) ab) :=
  tril_indices_pairwise n.
have e (c : 'I_(size t)) : nth (ij a) (tril_indices n) c = ij c.
  by rewrite [RHS](tnth_nth (ij a)).
rewrite !e /row_major.
have := tril_indices_le (ij_mem a); have := tril_indices_le (ij_mem b).
case: (ij a) (ij b) => [p q] [r c] /= cr qp /orP [pr|/andP [/eqP epr qc]].
  rewrite -!val_eqE /= gtn_eqF // gtn_eqF ?addr0 //.
  exact: leq_ltn_trans qp pr.
rewrite -epr eqxx upper_entry // add0r.
by case: eqP => // epq; move: qc; rewrite ltnNge -epq epr cr.
Qed.

Lemma A_tril_unit : A_tril_of Sm \in unitmx.
Proof.
rewrite unitmxE unitfE (det_trig A_tril_trig); apply/prodf_neq0 => a _.
rewrite A_tril_entry eqxx.
have := tril_indices_le (ij_mem a); case: (ij a) => p q /= qp.
case: (p =P q) => [->|_]; last by rewrite addr0.
by rewrite -mulr2n mulrn_eq0 /=.
Qed.

End DiffSystem.

Section DiffSucceeds.
Variable svd : forall n : nat, 'M[R]_n -> result ('M[R]_n * 'rV[R]_n * 'M[R]_n).
Variables nq ni : nat.

Lemma initialize_gradient_dataE (work : chol_work ni) :
  (0 < ni)%N -> gradient_data_ok work ->
  let work' := initialize_gradient_data work ni in
  [/\ chol_S work' = chol_S work, ni_range work' = Some (enum 'I_ni) &
      ni_tril_indices work' = Some (tril_indices ni)].
Proof.
move=> n0 ok; rewrite /initialize_gradient_data.
case: ifP => //; case: ok => [->|[-> ->] //] /=.
by rewrite eq_sym (gtn_eqF n0).
Qed.

Lemma diff_succeeds (work : chol_work ni) (Sm : 'M[R]_ni)
    (dQ_dq : {ffun 'I_nq -> 'M[R]_ni}) :
  (0 < ni)%N -> gradient_data_ok work -> chol_S work = Some Sm ->
  upper_triangular Sm -> (forall i, 0 < Sm i i) ->
  exists work' dS_dq,
    [/\ diff work dQ_dq = Ok (work', dS_dq), chol_S work' = Some Sm &
        gradient_data_ok work'].
Proof.
move=> n0 ok eS upS dS; rewrite /diff eS /=.
have [eS' -> ->] /= := initialize_gradient_dataE n0 ok.
have dS' : forall i, Sm i i != 0 by move=> i; rewrite gt_eqF.
have := A_tril_unit upS dS'; rewrite /A_tril_of /inv => -> /=.
do 2!eexists; split; first by reflexivity.
  by rewrite eS'.
by right; have [_ -> ->] := initialize_gradient_dataE n0 ok.
Qed.

End DiffSucceeds.

Section DerivativeVariants.
Variable svd : forall n : nat, 'M[R]_n -> result ('M[R]_n * 'rV[R]_n * 'M[R]_n).
Variables nq ni no : nat.
Variable self : UnscentedTransform ni.

Notation work_t := (UnscentedTransformWork nq ni (nsigma self) no).

Lemma sigma_points_diff_svd (work : work_t) di_dq dPi_dq :
  ut_class_of self = SVDUnscentedTransform ->
  sigma_points_diff self work di_dq dPi_dq = Raise AttributeError.
Proof. by rewrite /sigma_points_diff /ut_sqrt_diff => ->. Qed.

Lemma transform_diff_svd (work : work_t) df_dq df_dx di_dq dPi_dq :
  ut_class_of self = SVDUnscentedTransform ->
  transform_diff self work df_dq df_dx di_dq dPi_dq = Raise AttributeError.
Proof.
move=> cls; rewrite /transform_diff; case: (i_sigma work) => [sig|] //=.
by rewrite sigma_points_diff_svd.
Qed.

Lemma ut_sqrt_cholesky (work w1 : work_t) Q Sm :
  ut_class_of self = CholeskyUnscentedTransform ->
  ut_sqrt svd self work Q = Ok (w1, Sm) ->
  [/\ cholesky Q = Ok Sm, chol_S (ut_chol w1) = Some Sm,
      gradient_data_initialized (ut_chol w1) =
        gradient_data_initialized (ut_chol work),
      ni_range (ut_chol w1) = ni_range (ut_chol work) &
      ni_tril_indices (ut_chol w1) = ni_tril_indices (ut_chol work)].
Proof.
rewrite /ut_sqrt => ->; rewrite /decompose.
by case e: (cholesky Q) => [S1|] //= [<- <-].
Qed.

Lemma sigma_points_cholesky (work w2 : work_t) sig :
  ut_class_of self = CholeskyUnscentedTransform ->
  gradient_data_ok (ut_chol work) ->
  sigma_points svd self work = Ok (w2, sig) ->
  exists Sm,
    [/\ chol_S (ut_chol w2) = Some Sm, upper_triangular Sm,
        forall i, 0 < Sm i i, gradient_data_ok (ut_chol w2) &
        i_sigma w2 = Some sig].
Proof.
move=> cls ok; rewrite /sigma_points.
case e: (ut_sqrt _ _ _ _) => [[w1 Sm]|] //= [<- <-] /=.
have [ec eS e1 e2 e3] := ut_sqrt_cholesky cls e.
have [upS dS] := cholesky_shape ec.
exists Sm; split=> //.
by case: ok => [ini|[rng tri]]; [left; rewrite e1|right; rewrite e2 e3].
Qed.



End DerivativeVariants.

Section DerivativeCross.
Variable svd : forall n : nat, 'M[R]_n -> result ('M[R]_n * 'rV[R]_n * 'M[R]_n).
Variables nq ni no : nat.
Variable self : UnscentedTransform ni.

Notation work_t := (UnscentedTransformWork nq ni (nsigma self) no).

Lemma transform_diff_crosscov (work w3 : work_t) f r df_dq df_dx di_dq dPi_dq :
  ut_class_of self = CholeskyUnscentedTransform -> (0 < ni)%N ->
  gradient_data_ok (ut_chol work) ->
  transform svd self work f = Ok (w3, r) ->
  exists w4 res,
    transform_diff self w3 df_dq df_dx di_dq dPi_dq = Ok (w4, res) /\
    succeeds (crosscov_diff self w4).
Proof.
move=> cls n0 ok; rewrite /transform.
case e: (sigma_points _ _ _) => [[w2 sig]|] //= [<- _].
have [Sm [eS upS dS ok2 esig]] := sigma_points_cholesky cls ok e.
have edev : exists dev, i_dev w2 = Some dev.
  move: e; rewrite /sigma_points.
  by case: (ut_sqrt _ _ _ _) => [[w1 S1]|] //= [<- _] /=; eexists.
case: edev => dev edev.
rewrite /transform_diff /= esig /= /sigma_points_diff /ut_sqrt_diff cls /=.
have [c [dSq [-> _ _]]] /= :=
  diff_succeeds [ffun a => (ni%:R + kappa self) *: dPi_dq a] n0 ok2 eS upS dS.
do 2!eexists; split; first by reflexivity.
by rewrite /crosscov_diff /= edev /=; eexists.
Qed.

End DerivativeCross.

(** ** Calls that succeed *)

(** *** Positive definiteness *)

Lemma qform_scalar n (c : R) (v : 'rV[R]_n) :
  qform c%:M v = c * (v *m v^T) 0 0.
Proof. by rewrite /qform mul_mx_scalar -scalemxAl mxE. Qed.

Lemma sum_sqr_gt0 n (v : 'rV[R]_n) : v != 0 -> 0 < (v *m v^T) 0 0.
Proof.
move=> v0; rewrite lt_def; apply/andP; split.
  by apply: contra_neq v0; apply: sum_sqr_eq0.
by rewrite mxE; apply: sumr_ge0 => k _; rewrite mxE -expr2 sqr_ge0.
Qed.

Lemma posdef_scalar n (c : R) : 0 < c -> posdef (c%:M : 'M[R]_n).
Proof. by move=> c0 v v0; rewrite qform_scalar mulr_gt0 // sum_sqr_gt0. Qed.

Lemma symmetric_scalar n (c : R) : symmetric (c%:M : 'M[R]_n).
Proof. exact: tr_scalar_mx. Qed.

Lemma posdef_psd n (A : 'M[R]_n) : posdef A -> psd A.
Proof.
move=> pA v; have [->|/pA /ltW //] := eqVneq v 0.
by rewrite /qform !mul0mx mxE.
Qed.

Lemma posdef_scale n (c : R) (A : 'M[R]_n) :
  0 < c -> posdef A -> posdef (c *: A).
Proof.
move=> c0 pA v v0; rewrite /qform -scalemxAr -scalemxAl mxE.
exact: mulr_gt0 (pA v v0).
Qed.

Lemma posdefDl n (A B : 'M[R]_n) : psd A -> posdef B -> posdef (A + B).
Proof. by move=> pA pB v v0; rewrite qformD ltr_wpDl // pB. Qed.

Lemma mxsub_posdef m n (f : 'I_m -> 'I_n) (A : 'M[R]_n) :
  injective f -> posdef A -> posdef (mxsub f f A).
Proof.
move=> f_inj pA v v0; rewrite mxsub_congr qform_congr; apply: pA.
apply: contra_neq v0 => /rowP e; apply/rowP => i.
have := e (f i); rewrite !mxE (bigD1 i) //= !mxE eqxx mulr1 big1 ?addr0 //.
by move=> k ki; rewrite !mxE (inj_eq f_inj) (negbTE ki) mulr0.
Qed.

Lemma mxsub_scalar m n (f : 'I_m -> 'I_n) (c : R) :
  injective f -> mxsub f f c%:M = c%:M.
Proof. by move=> f_inj; apply/matrixP => i j; rewrite !mxE (inj_eq f_inj). Qed.

(** *** Factorisations that succeed *)

Lemma cholesky_unit n (Q Sm : 'M[R]_n) : cholesky Q = Ok Sm -> Sm \in unitmx.
Proof.
move=> /cholesky_shape [upS dS].
rewrite unitmxE unitfE -det_tr (det_trig upS); apply/prodf_neq0 => k _.
by rewrite mxE gt_eqF.
Qed.

Lemma cholesky_scalar n (c : R) :
  0 < c -> cholesky (c%:M : 'M[R]_n) = Ok (sqrt c)%:M.
Proof.
move=> c0; elim: n => [|n IH]; first by congr Ok; rewrite [LHS]flatmx0 [RHS]flatmx0.
rewrite -[n.+1]/(1 + n)%N cholesky_cons /= mxE eqxx mulr1n leNgt c0 /=.
rewrite scalar_mx_block block_mxKur block_mxKdr scaler0 trmx0 mul0mx subr0 IH /=.
by rewrite [in RHS]scalar_mx_block.
Qed.

Section Succeeds.
Variable svd : forall n : nat, 'M[R]_n -> result ('M[R]_n * 'rV[R]_n * 'M[R]_n).
Variables nq nx ny : nat.
Variable model : Model nq nx ny.
Variables pred_ut corr_ut : UnscentedTransform nx.

Notation work_t := (DTKalmanFilterWork nq ny pred_ut corr_ut).

Lemma ut_sqrt_succeeds (self : UnscentedTransform nx) no
    (work : UnscentedTransformWork nq nx (nsigma self) no) (Q : 'M[R]_nx) :
  ut_class_of self = CholeskyUnscentedTransform ->
  symmetric Q -> posdef Q -> succeeds (ut_sqrt svd self work Q).
Proof.
move=> cls sQ pQ; rewrite /ut_sqrt cls /decompose.
by have [Sm ->] := cholesky_succeeds sQ pQ; eexists.
Qed.

Lemma kappa_pos (self : UnscentedTransform nx) :
  0 <= kappa self -> nx%:R + kappa self != 0 -> 0 < nx%:R + kappa self.
Proof. by move=> k0 nk0; rewrite lt_def nk0 addr_ge0 // ler0n. Qed.

Lemma transform_succeeds (self : UnscentedTransform nx) no
    (work : UnscentedTransformWork nq nx (nsigma self) no) f :
  ut_class_of self = CholeskyUnscentedTransform ->
  0 <= kappa self -> nx%:R + kappa self != 0 ->
  symmetric (ut_Pi work) -> posdef (ut_Pi work) ->
  succeeds (transform svd self work f).
Proof.
move=> cls k0 nk0 sP pP.
have [[w1 Sm] e] : succeeds (ut_sqrt svd self work
    ((nx%:R + kappa self) *: ut_Pi work)).
  apply: ut_sqrt_succeeds => //; first exact: symmetric_scale.
  exact/posdef_scale/pP/kappa_pos.
by have [w3 [e3 _]] := transformE f e; rewrite e3; eexists.
Qed.

Lemma predict_succeeds (work : work_t) :
  ut_class_of pred_ut = CholeskyUnscentedTransform ->
  0 <= kappa pred_ut -> nx%:R + kappa pred_ut != 0 ->
  symmetric (kw_Px work) -> posdef (kw_Px work) ->
  succeeds (predict svd model work).
Proof.
move=> cls k0 nk0 sP pP; rewrite /predict.
have [utwr e] : succeeds (transform svd pred_ut
    (Work (nq:=nq) pred_ut (kw_x work) (kw_Px work))
    (m_f model (kw_k work) (m:=nsigma pred_ut))).
  exact: transform_succeeds.
by rewrite e /=; case: utwr {e} => utw [f Pf]; eexists.
Qed.

Lemma correct_succeeds (work : work_t) (y : masked_array ny) :
  ut_class_of corr_ut = CholeskyUnscentedTransform ->
  0 <= kappa corr_ut -> nx%:R + kappa corr_ut != 0 ->
  symmetric (kw_Px work) -> posdef (kw_Px work) ->
  symmetric (m_R model) -> posdef (m_R model) ->
  succeeds (correct svd model work y).
Proof.
move=> cls k0 nk0 sP pP sR pR; rewrite /correct.
case: ifP => _ /=; first by eexists.
set sel := active_index _.
set h_fun := fun X => colsub sel _.
have [[w1 Sm] e] : succeeds (ut_sqrt svd corr_ut
    (Work (nq:=nq) corr_ut (kw_x work) (kw_Px work) (no := #|~: ma_mask y|))
    ((nx%:R + kappa corr_ut) *: kw_Px work)).
  apply: ut_sqrt_succeeds => //; first exact: symmetric_scale.
  exact/posdef_scale/pP/kappa_pos.
have [w3 [-> [_ _ edev eodev _]]] /= := transformE h_fun e.
rewrite /crosscov edev eodev /= /decompose.
set Ph := weighted_outer _ _ _; set Rm := mxsub _ _ _.
have sPy : symmetric (Ph + Rm).
  by apply/symmetricD/mxsub_sym/sR/weighted_outer_sym.
have pPy : posdef (Ph + Rm).
  apply: posdefDl; first exact/weighted_outer_psd/weights_ge0.
  by apply: mxsub_posdef => //; apply: enum_val_inj.
have [PyC ec] := cholesky_succeeds sPy pPy.
by rewrite ec /= /inv (cholesky_unit ec) /=; eexists.
Qed.

End Succeeds.

Section CorrectionDiff.
Variable svd : forall n : nat, 'M[R]_n -> result ('M[R]_n * 'rV[R]_n * 'M[R]_n).
Variables nq nx ny : nat.
Variable model : Model nq nx ny.
Variables pred_ut corr_ut : UnscentedTransform nx.

Notation work_t := (DTKalmanFilterWork nq ny pred_ut corr_ut).

Lemma setC_eq0 (A : {set 'I_ny}) : (~: A == set0) = (A == setT).
Proof. by rewrite -setCT (inj_eq (@setC_inj _)). Qed.

Lemma correction_diff_name_error (work w' : work_t) (y : masked_array ny) r
    dx_dq dPx_dq :
  ut_class_of corr_ut = CholeskyUnscentedTransform -> (0 < nx)%N ->
  ma_mask y != setT ->
  kw_dx_dq work = Some dx_dq -> kw_dPx_dq work = Some dPx_dq ->
  correct svd model work y = Ok (w', r) ->
  correction_diff model w' = Raise NameError.
Proof.
move=> cls n0 my edx edP ec.
have [utw [h [Ph [Pxh [PyC [PyCI [et _ _ _ ->]]]]]]] := correctE my ec.
rewrite /correction_diff /= setC_eq0 (negbTE my) edx edP /=.
case: eqP => // na_eq.
set td := transform_diff _ _ _ _ _ _.
have [w4 [res [e4 [c ec4]]]] : exists w4 res,
    td = Ok (w4, res) /\ succeeds (crosscov_diff corr_ut w4).
  by apply: transform_diff_crosscov cls n0 _ et; left.
by rewrite e4 /=; case: res {e4} => a b /=; rewrite ec4.
Qed.

End CorrectionDiff.

(** *** Constructors *)

Section ConstructorLemmas.
Variable extract_subkeys : options -> string -> options.
Variable nx : nat.

Lemma UT_init_assert cls opts kap :
  kappa_option opts = Ok kap -> nx%:R + kap = 0 ->
  UT_init nx cls opts = Raise AssertionError.
Proof. by rewrite /UT_init => -> /= ->; rewrite eqxx. Qed.

Lemma UT_init_ok cls opts (self : UnscentedTransform nx) :
  UT_init nx cls opts = Ok self ->
  nx%:R + kappa self != 0 /\ ut_class_of self = cls.
Proof.
rewrite /UT_init; case: (kappa_option opts) => [kap|] //=.
by case: ifP => // /negbT nk0 [<-].
Qed.

Lemma choose_invalid opts :
  ~~ valid_sqrt_option (opt_get opts "sqrt") ->
  choose_ut_transform_class opts = Raise ValueError.
Proof.
rewrite /choose_ut_transform_class /valid_sqrt_option.
case: (opt_get opts "sqrt") => [[s|x]|] //.
by rewrite negb_or => /andP [/negbTE -> /negbTE ->].
Qed.

Lemma choose_ok opts cls :
  choose_ut_transform_class opts = Ok cls ->
  valid_sqrt_option (opt_get opts "sqrt").
Proof.
rewrite /choose_ut_transform_class /valid_sqrt_option.
case: (opt_get opts "sqrt") => [[s|x]|] //.
by case: ifP => // _; case: ifP => //; rewrite orbT.
Qed.

End ConstructorLemmas.

(** ** Example inputs and the verified statements *)

(** *** The example inputs *)

Lemma svd_diagonal_contract : svd_contract svd_diagonal.
Proof.
move=> n Q U VT s; rewrite /svd_diagonal.
case: ifP => // /andP [/is_diag_mxP dQ /forallP Q0] [<- <- <-].
split; rewrite ?trmx1 ?mulmx1 ?mul1mx //.
  by move=> j; rewrite mxE.
apply/matrixP => i j; rewrite !mxE.
by have [->|ne] := eqVneq i j; rewrite ?mulr1n ?mulr0n // dQ.
Qed.

Lemma two_sq_gt0 : 0 < (2 * 2 : R).
Proof. by rewrite mulr_gt0 // ltr0n. Qed.

(** ** The claims *)



Lemma example_kappa : 0 <= kappa example_ut /\ 1%:R + kappa example_ut != 0.
Proof. by rewrite /= addr0 oner_eq0. Qed.



Lemma svd_diagonal_scalar (n : nat) (c : R) :
  0 <= c -> svd_diagonal (c%:M : 'M[R]_n) = Ok (1%:M, \row_j c%:M j j, 1%:M).
Proof.
move=> c0; rewrite /svd_diagonal scalar_mx_is_diag /=.
by have -> : [forall j, 0 <= (c%:M : 'M[R]_n) j j];
  first by apply/forallP => j; rewrite mxE eqxx.
Qed.

Lemma centred_kappa cls : 2%:R + kappa (centred_ut cls) != 0.
Proof. by rewrite /= natr1 pnatr_eq0. Qed.

Lemma centred_sqrt cls :
  succeeds (ut_sqrt svd_diagonal (centred_ut cls) (centred_work cls)
              ((2%:R + kappa (centred_ut cls)) *: ut_Pi (centred_work cls))).
Proof.
have c0 : 0 < 2%:R + kappa (centred_ut cls) :> R.
  by rewrite /= natr1 ltr0n.
case: cls c0 => c0.
  apply: ut_sqrt_succeeds => //; first exact/symmetric_scale/symmetric_scalar.
  exact/posdef_scale/posdef_scalar.
have c1 : 0 <= (2%:R + 1) * 1 :> R by rewrite mulr1 ltW.
by rewrite /ut_sqrt /= scale_scalar_mx (svd_diagonal_scalar _ c1) /=; eexists.
Qed.

Lemma transform_affine_exact_witness :
  (exists work',
     transform svd_diagonal (centred_ut CholeskyUnscentedTransform)
       (centred_work CholeskyUnscentedTransform)
       (affine_map example_A example_b) =
     Ok (work', (const_mx 1 *m example_A^T + example_b,
                 example_A *m 1%:M *m example_A^T))) /\
  (exists work',
     transform svd_diagonal (centred_ut SVDUnscentedTransform)
       (centred_work SVDUnscentedTransform)
       (affine_map example_A example_b) =
     Ok (work', (const_mx 1 *m example_A^T + example_b,
                 example_A *m 1%:M *m example_A^T))).
Proof.
have run cls : exists work',
    transform svd_diagonal (centred_ut cls) (centred_work cls)
      (affine_map example_A example_b) =
    Ok (work', (const_mx 1 *m example_A^T + example_b,
                example_A *m 1%:M *m example_A^T)).
  have [[w1 Sm] e] := centred_sqrt cls.
  have SS : Sm^T *m Sm =
      (2%:R + kappa (centred_ut cls)) *: ut_Pi (centred_work cls).
    apply: (ut_sqrt_exact svd_diagonal_contract) e.
      exact/symmetric_scale/symmetric_scalar.
    apply/psd_scale/posdef_psd/posdef_scalar => //.
    by rewrite /= natr1 ler0n.
  have [work' [et _]] := transform_affine_exact (centred_kappa cls)
    example_A example_b e SS.
  by exists work'.
by split; apply: run.
Defined.



Lemma example_active : ma_mask example_y != setT.
Proof. by apply/eqP => /setP /(_ 0); rewrite !inE. Qed.

Section CorrectorClaims.
Variable svd : forall n : nat, 'M[R]_n -> result ('M[R]_n * 'rV[R]_n * 'M[R]_n).
Variables nq nx ny : nat.
Variable model : Model nq nx ny.
Variables pred_ut corr_ut : UnscentedTransform nx.

Notation work_t := (DTKalmanFilterWork nq ny pred_ut corr_ut).

Lemma transform_cov_sym (self : UnscentedTransform nx) no
    (w w3 : UnscentedTransformWork nq nx (nsigma self) no) f o Po :
  transform svd self w f = Ok (w3, (o, Po)) -> symmetric Po.
Proof.
move=> e; have [w1 [Sm e1]] := transform_inv e.
have [w4 [e4 _]] := transformE f e1.
by move: e; rewrite e4 => -[_ _ <-]; apply: weighted_outer_sym.
Qed.

(** C5: when every entry of [y] is masked, [correct] returns the [(x, Px)]
    of the work object, leaves [x], [Px] and [L] as they were, and the
    [update_likelihood] that follows changes nothing. *)
Theorem identity_step (work : work_t) (y : masked_array ny) :
  ma_mask y = setT ->
  exists work',
    [/\ correct svd model work y = Ok (work', (kw_x work, kw_Px work)),
        kw_x work' = kw_x work, kw_Px work' = kw_Px work,
        kw_L work' = kw_L work &
        update_likelihood work' = Ok work'].
Proof.
move=> my; rewrite /correct my eqxx; eexists; split; first by reflexivity.
- by [].
- by [].
- by [].
by rewrite /update_likelihood /= setCT eqxx.
Qed.

Lemma transform_zero (self : UnscentedTransform nx) no
    (w w3 : UnscentedTransformWork nq nx (nsigma self) no) f o Po :
  transform svd self w f = Ok (w3, (o, Po)) -> (forall X, f X = 0) -> Po = 0.
Proof.
move=> e f0; have [w1 [Sm e1]] := transform_inv e.
have [w4 [e4 _]] := transformE f e1.
move: e; rewrite e4 => -[_ _ <-].
by rewrite /weighted_outer f0 mulmx0 sub0r; apply/matrixP => a b;
  rewrite !mxE big1 // => k _; rewrite !mxE big1 ?mul0r // => l _;
  rewrite !mxE oppr0 mul0r.
Qed.

(** What [correct] stores when some entry is active, and what
    [update_likelihood] makes of it. *)
Lemma correct_likelihood (work w' : work_t) (y : masked_array ny) r (L : R) :
  symmetric (m_R model) -> kw_L work = Some L ->
  correct svd model work y = Ok (w', r) ->
  ma_mask y != setT ->
  let sel := active_index (~: ma_mask y) in
  exists utw h Ph Pxh PyC PyCI w'',
    let Py := Ph + mxsub sel sel (m_R model) in
    let PyI := PyCI *m PyCI^T in
    let e := colsub sel (ma_data y) - h in
    [/\ transform svd corr_ut (Work corr_ut (kw_x work) (kw_Px work))
          (fun X => colsub sel (m_h model (kw_k work) X)) =
        Ok (utw, (h, Ph)),
        kw_corr w' =
          Some (CorrData utw (CholWork (Some PyC) None None None) e Pxh PyI
                  PyC PyCI (Pxh *m PyI)),
        [/\ upper_triangular PyC, PyC^T *m PyC = Py & PyI *m Py = 1%:M],
        update_likelihood w' = Ok w'' /\
        kw_L w'' =
          Some (L - 2^-1 * qform PyI e - \sum_k ln (PyC k k)) &
        \sum_k ln (PyC k k) = ln (\det Py) / 2].
Proof.
move=> sR eL ec my.
have [utw [h [Ph [Pxh [PyC [PyCI [et ex ech ei ew]]]]]]] := correctE my ec.
move=> sel; set Py := Ph + _ in ech ew.
have sPy : symmetric Py.
  apply: symmetricD; first exact: (transform_cov_sym et).
  exact: mxsub_sym.
have SS := cholesky_correct sPy ech.
have [upS _] := cholesky_shape ech.
have PyIPy : PyCI *m PyCI^T *m Py = 1%:M.
  rewrite -SS mulmxA -[_ *m PyC^T]mulmxA -trmx_mul.
  by rewrite (mulmx1C (inv_correct ei)) trmx1 mulmx1 (inv_correct ei).
have a0 : ~: ma_mask y != set0 by rewrite setC_eq0.
have ea : kw_active w' = Some (~: ma_mask y) by rewrite ew.
have ecd : kw_corr w' = Some (CorrData utw (CholWork (Some PyC) None None None)
    (colsub sel (ma_data y) - h) Pxh (PyCI *m PyCI^T) PyC PyCI
    (Pxh *m (PyCI *m PyCI^T))) by rewrite ew.
have eL' : kw_L w' = Some L by rewrite ew.
have eu := update_likelihood_active ea a0 ecd eL'.
exists utw, h, Ph, Pxh, PyC, PyCI; eexists; split.
- exact: et.
- exact: ecd.
- by split.
- by split; [exact: eu |].
by rewrite (cholesky_logdet ech) SS.
Qed.

(** C6, amended: after a [correct] with active entries,
    [update_likelihood] lowers [L] by
    [0.5 e^T Py^-1 e + sum (log (diag PyC))], where [e] and [Py^-1] are the
    innovation and the inverse innovation covariance that [correct] stored,
    [PyC] is the upper-triangular factor of [Py], and the sum of the
    logarithms is half the logarithm of the determinant of [Py]; after an
    identity step it does nothing. *)
Theorem likelihood_update (work w' : work_t) (y : masked_array ny) r (L : R) :
  symmetric (m_R model) -> kw_L work = Some L ->
  correct svd model work y = Ok (w', r) ->
  (ma_mask y = setT -> update_likelihood w' = Ok w') /\
  (ma_mask y != setT ->
   let sel := active_index (~: ma_mask y) in
   exists utw h Ph Pxh PyC PyCI w'',
     let Py := Ph + mxsub sel sel (m_R model) in
     let PyI := PyCI *m PyCI^T in
     let e := colsub sel (ma_data y) - h in
     [/\ transform svd corr_ut (Work corr_ut (kw_x work) (kw_Px work))
           (fun X => colsub sel (m_h model (kw_k work) X)) =
         Ok (utw, (h, Ph)),
         kw_corr w' =
           Some (CorrData utw (CholWork (Some PyC) None None None) e Pxh PyI
                   PyC PyCI (Pxh *m PyI)),
         [/\ upper_triangular PyC, PyC^T *m PyC = Py & PyI *m Py = 1%:M],
         update_likelihood w' = Ok w'' /\
         kw_L w'' =
           Some (L - (2^-1 * qform PyI e + \sum_k ln (PyC k k))) &
         \sum_k ln (PyC k k) = ln (\det Py) / 2]).
Proof.
move=> sR eL ec; split=> [my|my].
  move: ec; rewrite /correct my eqxx => -[<- _].
  by rewrite /update_likelihood /= setCT eqxx.
have [utw [h [Ph [Pxh [PyC [PyCI [w'' [et ecd fac [eu eL'] ld]]]]]]]] :=
  correct_likelihood sR eL ec my.
move=> sel; exists utw, h, Ph, Pxh, PyC, PyCI, w''; split=> //.
by split=> //; rewrite eL' opprD addrA.
Qed.

(** C7: after a [correct] with active entries on a work object whose
    [dx_dq] and [dPx_dq] are set, [correction_diff] does not complete: it
    raises, and with a Cholesky transform on at least one state the
    exception is the [NameError] of the unbound name [dPh_dq]. *)
Theorem correction_diff_fails (work w' : work_t) (y : masked_array ny) r
    dx_dq dPx_dq :
  ma_mask y != setT ->
  kw_dx_dq work = Some dx_dq -> kw_dPx_dq work = Some dPx_dq ->
  correct svd model work y = Ok (w', r) ->
  raises (correction_diff model w') /\
  (ut_class_of corr_ut = CholeskyUnscentedTransform -> (0 < nx)%N ->
   correction_diff model w' = Raise NameError).
Proof.
move=> my edx edP ec; split; last first.
  by move=> cls n0; apply: correction_diff_name_error cls n0 my edx edP ec.
have [utw [h [Ph [Pxh [PyC [PyCI [_ _ _ _ ew]]]]]]] := correctE my ec.
apply: (@correction_diff_raises _ _ _ _ _ _ _ (~: ma_mask y)).
  by rewrite ew.
by rewrite setC_eq0.
Qed.

End CorrectorClaims.

Lemma identity_step_witness :
  exists work',
    [/\ correct svd_diagonal example_model example_work missing_y =
          Ok (work', (kw_x example_work, kw_Px example_work)),
        kw_x work' = kw_x example_work, kw_Px work' = kw_Px example_work,
        kw_L work' = kw_L example_work &
        update_likelihood work' = Ok work'].
Proof.
exact: (identity_step svd_diagonal example_model example_work
          (y := missing_y) erefl).
Defined.

Lemma example_R_sym : symmetric (m_R example_model).
Proof. exact: symmetric_scalar. Qed.

Lemma example_correct (model : Model 1 1 1) :
  m_R model = (2 * 2)%:M ->
  succeeds (correct svd_diagonal model example_work example_y).
Proof.
move=> eR; have [k0 nk0] := example_kappa.
apply: correct_succeeds => //; rewrite ?eR.
- exact: symmetric_scalar.
- exact: posdef_scalar.
- exact: symmetric_scalar.
- exact/posdef_scalar/two_sq_gt0.
Qed.

Lemma likelihood_update_witness :
  exists w' r w'' cd,
    [/\ correct svd_diagonal example_model example_work example_y =
          Ok (w', r),
        kw_corr w' = Some cd, update_likelihood w' = Ok w'' &
        kw_L w'' =
          Some (0 - (2^-1 * qform (cd_PyI cd) (cd_e cd) +
                     \sum_k ln (cd_PyC cd k k)))].
Proof.
have [[w' r] ec] := example_correct (model := example_model) erefl.
have [_ /(_ example_active)] := likelihood_update (work := example_work) (L := 0)
  example_R_sym erefl ec.
move=> [utw [h [Ph [Pxh [PyC [PyCI [w'' [et ecd _ [eu eL] _]]]]]]]].
by exists w', r, w''; eexists; split; [exact: ec | exact: ecd | exact: eu |].
Defined.

Lemma sign_clash (a s l : R) :
  0 - a - s = 0 - (a - s) -> s = l / 2 -> 0 < l -> False.
Proof. by move=> e1 e2 l0; lra. Qed.

(** The inputs on which the likelihood update differs from the formula
    [L - (0.5 e^T Py^-1 e - sum (log (diag PyC)))]: the innovation
    covariance is 4, its factor is 2, and [log 2] is not zero. *)
Lemma likelihood_sign_counterexample :
  exists w' r cd w'',
    [/\ correct svd_diagonal silent_model example_work example_y = Ok (w', r),
        kw_corr w' = Some cd, update_likelihood w' = Ok w'' &
        kw_L w'' <>
          Some (claimed_likelihood 0 (cd_e cd) (cd_PyI cd) (cd_PyC cd))].
Proof.
have [[w' r] ec] := example_correct (model := silent_model) erefl.
have sR : symmetric (m_R silent_model) by apply: symmetric_scalar.
have := correct_likelihood (work := example_work) (L := 0) sR erefl ec
  example_active.
move=> [utw [h [Ph [Pxh [PyC [PyCI [w'' [et ecd _ [eu eL] ld]]]]]]]].
exists w', r; eexists; exists w''; split;
  [exact: ec | exact: ecd | exact: eu |].
rewrite eL /claimed_likelihood /= => -[eq].
have Ph0 : Ph = 0.
  by apply: (transform_zero et) => X; apply/matrixP => a b; rewrite !mxE.
have inj_sel : injective (active_index (~: ma_mask example_y)).
  exact: enum_val_inj.
move: ld; rewrite Ph0 add0r (mxsub_scalar _ inj_sel).
rewrite det_scalar => ld.
have : 0 < ln ((2 * 2 : R) ^+ #|~: ma_mask example_y|).
  apply: ln_gt0; rewrite /= setC0 cardsT card_ord expr1.
  by rewrite -[1]/(1%:R) -natrM ltr_nat.
move: eq ld; set s := \sum_k _; set a := 2^-1 * _; set l := ln _.
by move=> eq ld l0; apply: (sign_clash eq ld l0).
Qed.

Lemma correction_diff_fails_witness :
  exists w' r,
    [/\ correct svd_diagonal example_model example_work example_y =
          Ok (w', r),
        raises (correction_diff example_model w') &
        correction_diff example_model w' = Raise NameError].
Proof.
have [[w' r] ec] := example_correct (model := example_model) erefl.
have [rs ne] := correction_diff_fails (work := example_work) example_active
  erefl erefl ec.
by exists w', r; split; [exact: ec | exact: rs | exact: ne].
Defined.

Section DriverClaims.
Variables (W Y X P : Type).
Variable correct : W -> Y -> result (W * (X * P)).
Variable predict : W -> result (W * (X * P)).

Lemma logged_total :
  (forall w yk, succeeds (correct w yk)) -> (forall w, succeeds (predict w)) ->
  (forall wl yk, succeeds (logged_correct correct wl yk)) /\
  (forall wl, succeeds (logged_predict predict wl)).
Proof.
move=> cT pT; split=> [wl yk|wl].
  rewrite /logged_correct; have [[w [xk Pxk]] ->] /= := cT wl.1 yk.
  by eexists.
by rewrite /logged_predict; have [[w r] ->] /= := pT wl.1; eexists.
Qed.

(** C8: a run of [filter] on [N] measurements that returns has made the
    calls [correct, predict, correct, ..., predict, correct]: [N] calls of
    [correct], [N - 1] of [predict], none after the last [correct]; the
    trajectories it returns have length [N] and their rows are the results
    of the [correct] calls, in order.  The run returns whenever [correct]
    and [predict] do. *)
Theorem filter_calls (work : W) (ys : seq Y) :
  (forall w' log xs Ps,
     kf_filter (logged_correct correct) (logged_predict predict)
       (work, [::]) ys = Ok ((w', log), (xs, Ps)) ->
     exists rs,
       [/\ log = alternate rs /\
           kf_filter correct predict work ys = Ok (w', (xs, Ps)),
           xs = [seq r.1 | r <- rs] /\ Ps = [seq r.2 | r <- rs],
           size xs = size ys /\ size Ps = size ys,
           count (@is_correct_call X P) log = size ys &
           count (@is_predict_call X P) log = (size ys).-1]) /\
  ((forall w yk, succeeds (correct w yk)) ->
   (forall w, succeeds (predict w)) ->
   succeeds (kf_filter (logged_correct correct) (logged_predict predict)
               (work, [::]) ys)).
Proof.
split=> [w' log xs Ps e|cT pT]; last first.
  by have [lcT lpT] := logged_total cT pT; apply: filter_loop_total.
have [|rs [sz -> -> -> e5]] := filter_loop_log _ e; first by rewrite add0n.
have [c1 c2] := count_alternate rs.
by exists rs; rewrite !cat0s !size_map c1 c2 sz; split.
Qed.

End DriverClaims.

Lemma filter_calls_witness :
  kf_filter (logged_correct counter_correct) (logged_predict counter_predict)
    (0%N, [::]) [:: 1; 2; 3]%N =
  Ok ((11%N, [:: CorrectCall 1%N 1%N; PredictCall; CorrectCall 4%N 2%N;
                 PredictCall; CorrectCall 11%N 3%N]),
      ([:: 1; 4; 11]%N, [:: 1; 2; 3]%N)) /\
  (exists rs,
     [/\ [:: CorrectCall 1%N 1%N; PredictCall; CorrectCall 4%N 2%N;
             PredictCall; CorrectCall 11%N 3%N] = alternate rs /\
         kf_filter counter_correct counter_predict 0%N [:: 1; 2; 3]%N =
           Ok (11%N, ([:: 1; 4; 11]%N, [:: 1; 2; 3]%N)),
         [:: 1; 4; 11]%N = [seq r.1 | r <- rs] /\
         [:: 1; 2; 3]%N = [seq r.2 | r <- rs],
         size [:: 1; 4; 11]%N = 3 /\ size [:: 1; 2; 3]%N = 3,
         count (@is_correct_call nat nat)
           [:: CorrectCall 1%N 1%N; PredictCall; CorrectCall 4%N 2%N;
               PredictCall; CorrectCall 11%N 3%N] = 3 &
         count (@is_predict_call nat nat)
           [:: CorrectCall 1%N 1%N; PredictCall; CorrectCall 4%N 2%N;
               PredictCall; CorrectCall 11%N 3%N] = 2]) /\
  succeeds (kf_filter (logged_correct counter_correct)
              (logged_predict counter_predict) (0%N, [::]) [:: 1; 2; 3]%N).
Proof.
have [run total] := filter_calls counter_correct counter_predict 0%N
  [:: 1; 2; 3]%N.
split; first by [].
split; first exact: (run _ _ _ _ erefl).
by apply: total => [w yk|w]; eexists.
Defined.

Section ConstructorClaims.
Variable extract_subkeys : options -> string -> options.
Variable nx : nat.

Lemma init_valid (opts : options) (self : UnscentedTransform nx) :
  (let! UTClass := choose_ut_transform_class opts in
   UT_init nx UTClass opts) = Ok self ->
  valid_sqrt_option (opt_get opts "sqrt") /\ nx%:R + kappa self != 0.
Proof.
case ec: (choose_ut_transform_class opts) => [cls|] //= ei.
split; first exact: choose_ok ec.
by have [] := UT_init_ok ei.
Qed.

(** C9: the constructor of a transform raises when [ni + kappa = 0]; the
    constructors of the predictor and of the corrector raise when the
    [sqrt] option they pass on is neither [cholesky] nor [svd], and do not
    return when [nx + kappa = 0]; so the transforms of a filter that was
    constructed have [nx + kappa <> 0] and a valid [sqrt] option. *)
Theorem invalid_configuration :
  [/\ forall cls opts kap,
        kappa_option opts = Ok kap -> nx%:R + kap = 0 ->
        UT_init nx cls opts = Raise AssertionError,
      forall opts,
        ~~ valid_sqrt_option
             (opt_get (opt_update opts (extract_subkeys opts "pred_ut_"))
                "sqrt") ->
        DTUnscentedPredictor_init extract_subkeys nx opts = Raise ValueError,
      forall opts,
        ~~ valid_sqrt_option
             (opt_get (opt_update opts (extract_subkeys opts "corr_ut_"))
                "sqrt") ->
        DTUnscentedCorrector_init extract_subkeys nx opts = Raise ValueError,
      forall opts kap,
        nx%:R + kap = 0 ->
        (kappa_option (opt_update opts (extract_subkeys opts "pred_ut_")) =
           Ok kap ->
         raises (DTUnscentedPredictor_init extract_subkeys nx opts)) /\
        (kappa_option (opt_update opts (extract_subkeys opts "corr_ut_")) =
           Ok kap ->
         raises (DTUnscentedCorrector_init extract_subkeys nx opts)) &
      forall opts pred_ut corr_ut,
        DTUnscentedKalmanFilter_init extract_subkeys nx opts =
          Ok (pred_ut, corr_ut) ->
        [/\ valid_sqrt_option
              (opt_get (opt_update opts (extract_subkeys opts "pred_ut_"))
                 "sqrt"),
            valid_sqrt_option
              (opt_get (opt_update opts (extract_subkeys opts "corr_ut_"))
                 "sqrt"),
            nx%:R + kappa pred_ut != 0 & nx%:R + kappa corr_ut != 0]].
Proof.
split.
- exact: UT_init_assert.
- by move=> opts bad; rewrite /DTUnscentedPredictor_init choose_invalid.
- by move=> opts bad; rewrite /DTUnscentedCorrector_init choose_invalid.
- move=> opts kap nk0; split=> ek.
    rewrite /DTUnscentedPredictor_init.
    case: (choose_ut_transform_class _) => [cls|e] /=; last by eexists.
    by rewrite (UT_init_assert _ ek nk0); eexists.
  rewrite /DTUnscentedCorrector_init.
  case: (choose_ut_transform_class _) => [cls|e] /=; last by eexists.
  by rewrite (UT_init_assert _ ek nk0); eexists.
move=> opts pred_ut corr_ut; rewrite /DTUnscentedKalmanFilter_init.
case ec: (DTUnscentedCorrector_init _ _ _) => [c|] //=.
case ep: (DTUnscentedPredictor_init _ _ _) => [p|] //= [<- <-].
have [vp kp] := init_valid ep.
by have [vc kc] := init_valid ec.
Qed.

End ConstructorClaims.

Lemma invalid_configuration_witness :
  [/\ UT_init 1 CholeskyUnscentedTransform [:: ("kappa"%string, PyFloat (- 1))] =
        Raise AssertionError,
      DTUnscentedPredictor_init no_subkeys 1
        [:: ("sqrt"%string, PyStr "qr")] = Raise ValueError,
      DTUnscentedCorrector_init no_subkeys 1
        [:: ("sqrt"%string, PyStr "qr")] = Raise ValueError &
      raises (DTUnscentedPredictor_init no_subkeys 1
                [:: ("kappa"%string, PyFloat (- 1))])].
Proof.
have [h1 h2 h3 h4 _] := invalid_configuration no_subkeys 1.
have nk0 : 1%:R + (- 1) = 0 :> R by rewrite subrr.
split.
- exact: (h1 CholeskyUnscentedTransform [:: ("kappa"%string, PyFloat (- 1))]
           (- 1) erefl nk0).
- exact: h2.
- exact: h3.
- by have [hp _] := h4 [:: ("kappa"%string, PyFloat (- 1))] _ nk0; apply: hp.
Defined.

Section DerivativeClaims.
Variable svd : forall n : nat, 'M[R]_n -> result ('M[R]_n * 'rV[R]_n * 'M[R]_n).
Variables nq ni no : nat.
Variable self : UnscentedTransform ni.

Notation work_t := (UnscentedTransformWork nq ni (nsigma self) no).


End DerivativeClaims.


(** ** Further properties of the module *)

(** *** The derivative that [diff] returns *)

Section ScatterTril.
Variable n : nat.

Let t := tril_indices n.
Let ij := tnth (in_tuple t).

Lemma tril_indices_uniq : uniq (tril_indices n).
Proof.
apply: pairwise_uniq (tril_indices_pairwise n) => -[p q].
by rewrite /row_major /= !ltnn andbF.
Qed.

Lemma ij_inj : injective ij.
Proof. exact/tuple_uniqP/tril_indices_uniq. Qed.

Lemma ij_le a : ((ij a).2 <= (ij a).1)%N.
Proof. exact/tril_indices_le/mem_tnth. Qed.

Lemma ij_surj (p q : 'I_n) : (q <= p)%N -> exists a, ij a = (p, q).
Proof.
move=> qp; have /tnthP [a e] : (p, q) \in in_tuple t.
  exact: tril_indices_mem.
by exists a.
Qed.

Variable v : 'rV[R]_(size t).

(** The indexed assignment writes each position at most once, so the
    scattered array is a sum over the positions. *)
Lemma scatter_foldl (l : seq 'I_(size t)) (M : 'M[R]_n) (r c : 'I_n) :
  uniq l ->
  foldl (fun (M : 'M[R]_n) (b : 'I_(size t)) =>
           \matrix_(r, c) if (r == (ij b).2) && (c == (ij b).1) then v 0 b
                          else M r c) M l r c =
  if has (fun b => ij b == (c, r)) l
  then \sum_(b <- l) (if ij b == (c, r) then v 0 b else 0)
  else M r c.
Proof.
elim: l M => [|b l IH] M //= /andP [bl ul]; rewrite IH // big_cons mxE.
have -> : (r == (ij b).2) && (c == (ij b).1) = (ij b == (c, r)).
  by case: (ij b) => p q; rewrite xpair_eqE /= andbC eq_sym [r == q]eq_sym.
case eb: (ij b == (c, r)) => /=; last by rewrite add0r.
have nl : forall b', b' \in l -> (ij b' == (c, r)) = false.
  move=> b' b'l; apply/negP => /eqP eb'; move: bl.
  by rewrite -(ij_inj (etrans eb' (esym (eqP eb)))) b'l.
have /hasPn/negbTE -> : {in l, forall b', ij b' != (c, r)}.
  by move=> b' /nl ->.
by rewrite big_seq big1 ?addr0 // => b' /nl ->.
Qed.

Lemma scatter_trilE (r c : 'I_n) :
  scatter_tril v r c = \sum_b (if ij b == (c, r) then v 0 b else 0).
Proof.
rewrite /scatter_tril scatter_foldl ?enum_uniq // big_enum /=.
case: ifP => // /hasPn h; rewrite mxE big1 // => b _.
by rewrite (negbTE (h b _)) // mem_enum.
Qed.

Lemma scatter_tril_upper : upper_triangular (scatter_tril v).
Proof.
apply/is_trig_mxP => i j ij_lt; rewrite mxE scatter_trilE big1 // => b _.
case: eqP => // eb; have := ij_le b; rewrite eb /= leqNgt.
by rewrite ij_lt.
Qed.

Lemma sum_second (b : 'I_(size t)) (p : 'I_n) (F : 'I_n -> R) :
  \sum_c (if ij b == (p, c) then F c else 0) =
  if (ij b).1 == p then F (ij b).2 else 0.
Proof.
case: (ij b) => p' q' /=; case: eqP => [->|ne].
  rewrite (bigD1 q') //= eqxx big1 ?addr0 // => c /negbTE cq.
  by rewrite xpair_eqE eqxx /= eq_sym cq.
by rewrite big1 // => c _; rewrite xpair_eqE; case: eqP.
Qed.

(** The rows of [A_tril] compute the entries of [dS^T S + S^T dS] in the
    lower triangle. *)
Lemma scatter_tril_system (Sm : 'M[R]_n) a :
  ((scatter_tril v)^T *m Sm + Sm^T *m scatter_tril v) (ij a).1 (ij a).2 =
  (v *m (A_tril_of Sm)^T) 0 a.
Proof.
rewrite [RHS]mxE [LHS]mxE [X in X + _]mxE [X in _ + X]mxE.
have -> : \sum_j v 0 j * (A_tril_of Sm)^T j a =
    \sum_b (if (ij b).1 == (ij a).1 then v 0 b * Sm (ij b).2 (ij a).2 else 0) +
    \sum_b (if (ij b).1 == (ij a).2 then v 0 b * Sm (ij b).2 (ij a).1 else 0).
  rewrite -big_split /=; apply: eq_bigr => b _.
  by rewrite mxE A_tril_entry mulrDr; do 2!case: ifP => _; rewrite ?mulr0.
congr (_ + _).
  under eq_bigr => c _ do rewrite mxE scatter_trilE mulr_suml.
  rewrite exchange_big /=; apply: eq_bigr => b _.
  rewrite -(sum_second b (ij a).1 (fun c => v 0 b * Sm c (ij a).2)).
  by apply: eq_bigr => c _; case: ifP => _; rewrite ?mul0r.
under eq_bigr => c _ do rewrite mxE scatter_trilE mulr_sumr.
rewrite exchange_big /=; apply: eq_bigr => b _.
rewrite -(sum_second b (ij a).2 (fun c => v 0 b * Sm c (ij a).1)).
by apply: eq_bigr => c _; case: ifP => _; rewrite ?mulr0 // mulrC.
Qed.

End ScatterTril.

Section DiffEquation.
Variables nq n : nat.

Lemma lower_entries (E F : 'M[R]_n) :
  symmetric E -> symmetric F ->
  (forall p q : 'I_n, (q <= p)%N -> E p q = F p q) -> E = F.
Proof.
move=> sE sF h; apply/matrixP => p q.
have [qp|/ltnW pq] := leqP q p; first exact: h.
by rewrite -sE -sF !mxE; apply: h.
Qed.

Lemma diffE (work : chol_work n) (Sm : 'M[R]_n)
    (dQ_dq : {ffun 'I_nq -> 'M[R]_n}) :
  (0 < n)%N -> gradient_data_ok work -> chol_S work = Some Sm ->
  upper_triangular Sm -> (forall i, Sm i i != 0) ->
  exists work' dS_dq,
    [/\ diff work dQ_dq = Ok (work', dS_dq),
        chol_S work' = Some Sm /\ gradient_data_ok work',
        forall a, upper_triangular (dS_dq a) &
        forall a, symmetric (dQ_dq a) ->
          (dS_dq a)^T *m Sm + Sm^T *m dS_dq a = dQ_dq a].
Proof.
move=> n0 ok eS upS dS; rewrite /diff eS /=.
have [eS' e2 e3] := initialize_gradient_dataE n0 ok.
rewrite e2 e3 /=.
have uA := A_tril_unit upS dS.
rewrite -/(A_tril_of Sm) /inv uA /=.
do 2!eexists; split; first by reflexivity.
- by split; [rewrite eS'|right].
- by move=> a; rewrite ffunE; apply: scatter_tril_upper.
move=> a sQ; rewrite ffunE; set v := _ *m (invmx _)^T.
apply: lower_entries => // [|p q qp].
  by rewrite /symmetric linearD /= !trmx_mul !trmxK addrC.
have [b eb] := ij_surj qp.
have := scatter_tril_system v Sm b; rewrite eb /= => ->.
rewrite /v -mulmxA -trmx_mul mulmxV // trmx1 mulmx1 mxE.
by rewrite eb.
Qed.

Lemma A_tril_singular (Sm : 'M[R]_n) (k : 'I_n) :
  upper_triangular Sm -> Sm k k = 0 -> A_tril_of Sm \notin unitmx.
Proof.
move=> upS Sk; rewrite unitmxE unitfE negbK (det_trig (A_tril_trig upS)).
have [a ea] := ij_surj (leqnn k).
by rewrite (bigD1 a) //= A_tril_entry ea /= eqxx Sk addr0 mul0r.
Qed.

(** X1: [decompose] followed by [diff] differentiates the factorisation
    [Q = S^T S]: for a symmetric positive-definite [Q] and symmetric
    derivatives [dQ_dq], [diff] returns upper-triangular [dS_dq] with
    [dS_dq^T S + S^T dS_dq = dQ_dq], and leaves [work.S] in place. *)
Theorem decompose_diff (work : chol_work n) (Q : 'M[R]_n)
    (dQ_dq : {ffun 'I_nq -> 'M[R]_n}) :
  (0 < n)%N -> gradient_data_ok work -> symmetric Q -> posdef Q ->
  (forall a, symmetric (dQ_dq a)) ->
  exists w1 Sm w2 dS_dq,
    [/\ decompose work Q = Ok (w1, Sm), diff w1 dQ_dq = Ok (w2, dS_dq),
        chol_S w2 = Some Sm, forall a, upper_triangular (dS_dq a) &
        forall a, (dS_dq a)^T *m Sm + Sm^T *m dS_dq a = dQ_dq a].
Proof.
move=> n0 ok sQ pQ sdQ; have [Sm ec] := cholesky_succeeds sQ pQ.
have [upS dS] := cholesky_shape ec.
have dS' : forall i, Sm i i != 0 by move=> i; rewrite gt_eqF.
set w1 := CholWork (Some Sm) (gradient_data_initialized work) (ni_range work)
            (ni_tril_indices work).
have ok1 : gradient_data_ok w1 by [].
have [w2 [dSq [ed [eS _] up eq]]] := diffE dQ_dq n0 ok1 (erefl : chol_S w1 = _)
  upS dS'.
exists w1, Sm, w2, dSq; split=> //; first by rewrite /decompose ec.
by move=> a; apply/eq/sdQ.
Qed.

(** X2: on a work object whose [S] is upper triangular, [diff] returns
    when every diagonal entry of [S] is non-zero and raises [LinAlgError]
    when one of them is zero; without [work.S] it raises
    [AttributeError]. *)
Theorem diff_defined (work : chol_work n) (dQ_dq : {ffun 'I_nq -> 'M[R]_n}) :
  (0 < n)%N -> gradient_data_ok work ->
  (chol_S work = None -> diff work dQ_dq = Raise AttributeError) /\
  (forall Sm, chol_S work = Some Sm -> upper_triangular Sm ->
     ((forall i, Sm i i != 0) -> succeeds (diff work dQ_dq)) /\
     (forall k, Sm k k = 0 -> diff work dQ_dq = Raise LinAlgError)).
Proof.
move=> n0 ok; split=> [eS|Sm eS upS]; first by rewrite /diff eS.
split=> [dS|k Sk].
  by have [w' [dSq [-> _ _ _]]] := diffE dQ_dq n0 ok eS upS dS; eexists.
rewrite /diff eS /=; have [_ -> ->] /= := initialize_gradient_dataE n0 ok.
by rewrite -/(A_tril_of Sm) /inv (negbTE (A_tril_singular upS Sk)).
Qed.

End DiffEquation.

(** *** Moments of the sigma points *)

Section SigmaMoments.
Variable svd : forall n : nat, 'M[R]_n -> result ('M[R]_n * 'rV[R]_n * 'M[R]_n).
Variables nq ni no : nat.
Variable self : UnscentedTransform ni.

Local Notation kap := (kappa self).
Local Notation ns := (nsigma self).
Notation work_t := (UnscentedTransformWork nq ni ns no).

Lemma weighted_outer_mul (m n p q : nat) (X : 'M[R]_(m, n)) (Y : 'M[R]_(m, p))
    (w : 'rV[R]_m) (B : 'M[R]_(p, q)) :
  weighted_outer X (Y *m B) w = weighted_outer X Y w *m B.
Proof. by rewrite /weighted_outer !mulmxA. Qed.

Lemma weighted_outer_mull (m n p q : nat) (X : 'M[R]_(m, n))
    (Y : 'M[R]_(m, p)) (w : 'rV[R]_m) (B : 'M[R]_(n, q)) :
  weighted_outer (X *m B) Y w = B^T *m weighted_outer X Y w.
Proof. by rewrite /weighted_outer trmx_mul !mulmxA. Qed.

Lemma weighted_outer_tr (m n p : nat) (X : 'M[R]_(m, n)) (Y : 'M[R]_(m, p))
    (w : 'rV[R]_m) :
  (weighted_outer X Y w)^T = weighted_outer Y X w.
Proof. by rewrite /weighted_outer !trmx_mul trmxK tr_diag_mx mulmxA. Qed.

Lemma deviations_cross (X Y : 'M[R]_ni) :
  ni%:R + kap != 0 ->
  weighted_outer (deviations self X) (deviations self Y) (weights self) =
  (ni%:R + kap)^-1 *: (X^T *m Y).
Proof.
move=> nk0; rewrite weighted_deviations /deviations col_mxKu col_mxKd col_mxKu.
rewrite opprK -mulr2n -scaler_nat mulmxE -scalerAr scalerA; congr (_ *: _).
by field.
Qed.

(** The state that [transform] leaves, in terms of the square root. *)
Lemma transform_state (work w1 : work_t) Sm f :
  ut_sqrt svd self work ((ni%:R + kap) *: ut_Pi work) = Ok (w1, Sm) ->
  let dev := deviations self Sm in
  let sig := dev + rows ns (ut_i work) in
  let o := weights self *m f sig in
  let odev := f sig - rows ns o in
  let Po := weighted_outer odev odev (weights self) in
  transform svd self work f =
    Ok (@UTWork nq ni ns no (ut_i work) (ut_Pi work) (ut_chol w1)
          (Some sig) (Some dev) (Some (f sig)) (Some odev) (Some o) (Some Po)
          (di_dev_dq w1) (di_sigma_dq w1) (do_dev_dq w1), (o, Po)).
Proof.
move=> e; have [ei ePi _] := ut_sqrt_frame e.
by rewrite /transform /sigma_points e /= ei ePi.
Qed.

Lemma sqrt_scaled (work w1 : work_t) Sm :
  svd_contract svd -> 0 < ni%:R + kap ->
  symmetric (ut_Pi work) -> psd (ut_Pi work) ->
  ut_sqrt svd self work ((ni%:R + kap) *: ut_Pi work) = Ok (w1, Sm) ->
  Sm^T *m Sm = (ni%:R + kap) *: ut_Pi work.
Proof.
move=> svdP pos sP pP e.
have h := ut_sqrt_exact (nq := nq) (self := self) svdP.
apply: h e; first exact: symmetric_scale.
exact/psd_scale/pP/ltW.
Qed.

Lemma affine_dev (A : 'M[R]_(no, ni)) (b : 'rV[R]_no) (Sm : 'M[R]_ni)
    (i : 'rV[R]_ni) :
  ni%:R + kap != 0 ->
  let sig := deviations self Sm + rows ns i in
  weights self *m affine_map A b sig = i *m A^T + b /\
  affine_map A b sig - rows ns (weights self *m affine_map A b sig) =
    deviations self Sm *m A^T.
Proof.
move=> nk0 sig.
have eo : weights self *m affine_map A b sig = i *m A^T + b.
  rewrite /affine_map mulmxDr weights_rows // mulmxA mulmxDr.
  by rewrite weights_deviations add0r weights_rows.
split=> //; rewrite eo /affine_map /sig mulmxDl rows_mul rowsD.
by rewrite -[_ + _ + rows ns b]addrA addrK.
Qed.


(** X4: whatever the function [f], the covariance that [transform]
    returns is symmetric, and it is positive semi-definite when
    [kappa >= 0]; the same matrix is stored as [work.Po]. *)
Theorem transform_cov_psd (work w3 : work_t) f o Po :
  ni%:R + kap != 0 ->
  transform svd self work f = Ok (w3, (o, Po)) ->
  [/\ symmetric Po, ut_Po w3 = Some Po, ut_o w3 = Some o &
      0 <= kap -> psd Po].
Proof.
move=> nk0 e; have [w1 [Sm e1]] := transform_inv e.
move: e; rewrite (transform_state f e1) => -[<- <- <-] /=; split=> //.
  exact: weighted_outer_sym.
by move=> k0; apply/weighted_outer_psd/weights_ge0.
Qed.

(** X5: after [transform] on an affine map [z |-> A z + b], [crosscov]
    returns the exact cross-covariance [Pi A^T] of input and output. *)
Theorem crosscov_affine (A : 'M[R]_(no, ni)) (b : 'rV[R]_no)
    (work w3 : work_t) r :
  svd_contract svd -> 0 < ni%:R + kap ->
  symmetric (ut_Pi work) -> psd (ut_Pi work) ->
  transform svd self work (affine_map A b) = Ok (w3, r) ->
  crosscov self w3 = Ok (ut_Pi work *m A^T).
Proof.
move=> svdP pos sP pP e; have [w1 [Sm e1]] := transform_inv e.
have nk0 : ni%:R + kap != 0 by rewrite gt_eqF.
have SS := sqrt_scaled svdP pos sP pP e1.
move: e; rewrite (transform_state _ e1) => -[<- _] /=.
rewrite /crosscov /=; congr Ok.
have [_ ->] := affine_dev A b Sm (ut_i work) nk0.
by rewrite weighted_outer_mul deviations_cov // SS scalerA mulVf // scale1r.
Qed.

(** The results of [transform] and of [crosscov] for a function that
    acts on the sigma points as an affine map. *)
Lemma transform_affine_inv (A : 'M[R]_(no, ni)) (b : 'rV[R]_no)
    (f : 'M[R]_(ns, ni) -> 'M[R]_(ns, no)) (work w3 : work_t) r :
  svd_contract svd -> 0 < ni%:R + kap ->
  symmetric (ut_Pi work) -> psd (ut_Pi work) ->
  (forall X, f X = affine_map A b X) ->
  transform svd self work f = Ok (w3, r) ->
  r = (ut_i work *m A^T + b, A *m ut_Pi work *m A^T) /\
  crosscov self w3 = Ok (ut_Pi work *m A^T).
Proof.
move=> svdP pos sP pP ef e; have [w1 [Sm e1]] := transform_inv e.
have nk0 : ni%:R + kap != 0 by rewrite gt_eqF.
have SS := sqrt_scaled svdP pos sP pP e1.
move: e; rewrite (transform_state _ e1) => -[<- <-] /=.
have [eo edev] := affine_dev A b Sm (ut_i work) nk0.
rewrite /crosscov /= !ef edev eo weighted_outer_mul weighted_outer_mull.
rewrite deviations_cov // SS scalerA mulVf // scale1r trmxK.
by rewrite weighted_outer_mul deviations_cov // SS scalerA mulVf // scale1r.
Qed.

Lemma cholesky_sqrt_raises (work : work_t) :
  ut_class_of self = CholeskyUnscentedTransform -> 0 < ni%:R + kap ->
  symmetric (ut_Pi work) -> ~ posdef (ut_Pi work) ->
  ut_sqrt svd self work ((ni%:R + kap) *: ut_Pi work) = Raise LinAlgError.
Proof.
move=> cls pos sP npP; rewrite /ut_sqrt cls /decompose.
case ec: (cholesky _) => [Sm|err] /=; last by rewrite (cholesky_raises ec).
case: npP; have := cholesky_posdef (symmetric_scale _ sP) ec.
move=> /(posdef_scale (c := (ni%:R + kap)^-1)); rewrite invr_gt0 => /(_ pos).
by rewrite scalerA mulVf ?gt_eqF // scale1r.
Qed.

(** X6: a Cholesky transform needs a positive-definite covariance: on a
    symmetric [Pi] that is not positive definite, [sigma_points] and
    [transform] raise the [LinAlgError] of the factorisation. *)
Theorem cholesky_transform_raises (work : work_t) f :
  ut_class_of self = CholeskyUnscentedTransform -> 0 < ni%:R + kap ->
  symmetric (ut_Pi work) -> ~ posdef (ut_Pi work) ->
  sigma_points svd self work = Raise LinAlgError /\
  transform svd self work f = Raise LinAlgError.
Proof.
move=> cls pos sP npP.
by rewrite /transform /sigma_points (cholesky_sqrt_raises cls pos sP npP).
Qed.

(** X7: the square root of the SVD transform: on a symmetric positive
    semi-definite [Q], singular or not, it returns whenever the SVD routine
    does, the matrix [S = (U sqrt(s))^T] it returns satisfies [S^T S = Q],
    and it is stored as [work.S]. *)
Theorem svd_sqrt_exact (work : work_t) (Q U VT : 'M[R]_ni) (s : 'rV[R]_ni) :
  ut_class_of self = SVDUnscentedTransform -> svd_contract svd ->
  symmetric Q -> psd Q -> svd Q = Ok (U, s, VT) ->
  exists w1,
    [/\ ut_sqrt svd self work Q = Ok (w1, (U *m diag_mx (map_mx sqrt s))^T),
        chol_S (ut_chol w1) = Some (U *m diag_mx (map_mx sqrt s))^T &
        (U *m diag_mx (map_mx sqrt s)) *m (U *m diag_mx (map_mx sqrt s))^T =
          Q].
Proof.
move=> cls svdP sQ pQ es.
have e : ut_sqrt svd self work Q =
    Ok (set_chol work
          (CholWork (Some (U *m diag_mx (map_mx sqrt s))^T)
             (gradient_data_initialized (ut_chol work))
             (ni_range (ut_chol work)) (ni_tril_indices (ut_chol work))),
        (U *m diag_mx (map_mx sqrt s))^T).
  by rewrite /ut_sqrt cls es.
have h := ut_sqrt_exact (nq := nq) (self := self) svdP.
by eexists; split; [exact: e | | rewrite -(h _ _ _ _ _ sQ pQ e) trmxK].
Qed.

End SigmaMoments.

(** *** Derivatives of the unscented transform *)

Section TransformDerivatives.
Variable svd : forall n : nat, 'M[R]_n -> result ('M[R]_n * 'rV[R]_n * 'M[R]_n).
Variables nq ni no : nat.
Variable self : UnscentedTransform ni.

Local Notation kap := (kappa self).
Local Notation ns := (nsigma self).
Notation work_t := (UnscentedTransformWork nq ni ns no).

Hypothesis cls : ut_class_of self = CholeskyUnscentedTransform.
Hypothesis n0 : (0 < ni)%N.
Hypothesis nk0 : ni%:R + kap != 0.

Lemma cholesky_state (work w1 : work_t) Q Sm :
  gradient_data_ok (ut_chol work) ->
  ut_sqrt svd self work Q = Ok (w1, Sm) ->
  [/\ chol_S (ut_chol w1) = Some Sm, gradient_data_ok (ut_chol w1),
      upper_triangular Sm, forall i, 0 < Sm i i &
      symmetric Q -> Sm^T *m Sm = Q].
Proof.
move=> ok e; have [ec eS e1 e2 e3] := ut_sqrt_cholesky cls e.
have [upS dS] := cholesky_shape ec; split=> //.
  by case: ok => [ini|[rng tri]]; [left; rewrite e1|right; rewrite e2 e3].
by move=> sQ; apply: cholesky_correct ec.
Qed.

(** What [sigma_points_diff] computes on a work object that holds a
    Cholesky factor. *)
Lemma sigma_points_diffE (w : work_t) (Sm : 'M[R]_ni) di_dq dPi_dq :
  chol_S (ut_chol w) = Some Sm -> gradient_data_ok (ut_chol w) ->
  upper_triangular Sm -> (forall i, 0 < Sm i i) ->
  exists c (dS : {ffun 'I_nq -> 'M[R]_ni}),
    [/\ sigma_points_diff self w di_dq dPi_dq =
          Ok (@UTWork nq ni ns no (ut_i w) (ut_Pi w) c (i_sigma w) (i_dev w)
                (o_sigma w) (o_dev w) (ut_o w) (ut_Po w)
                (Some [ffun a => deviations self (dS a)])
                (Some [ffun a => [ffun a => deviations self (dS a)] a +
                                 rows ns (di_dq a)])
                (do_dev_dq w),
              [ffun a => [ffun a => deviations self (dS a)] a +
                         rows ns (di_dq a)]),
        chol_S c = Some Sm /\ gradient_data_ok c,
        forall a, upper_triangular (dS a) &
        forall a, symmetric (dPi_dq a) ->
          (dS a)^T *m Sm + Sm^T *m dS a = (ni%:R + kap) *: dPi_dq a].
Proof.
move=> eS ok upS dS.
have dS' : forall i, Sm i i != 0 by move=> i; rewrite gt_eqF.
have [c [dSq [ed [eS' ok'] up eq]]] :=
  diffE [ffun a => (ni%:R + kap) *: dPi_dq a] n0 ok eS upS dS'.
exists c, dSq; split=> //.
  by rewrite /sigma_points_diff /ut_sqrt_diff cls ed.
by move=> a sa; rewrite eq ffunE //; apply: symmetric_scale.
Qed.

Lemma mul_rows_const (m n p : nat) (X : 'M[R]_(m, n)) (B : 'M[R]_(n, p)) :
  \matrix_(k, c) (row k X *m B) 0 c = X *m B.
Proof. by apply/matrixP => k c; rewrite mxE -row_mul mxE. Qed.

Lemma sigma_points_state (work w1 : work_t) Sm :
  ut_sqrt svd self work ((ni%:R + kap) *: ut_Pi work) = Ok (w1, Sm) ->
  let dev := deviations self Sm in
  let sig := dev + rows ns (ut_i work) in
  sigma_points svd self work =
    Ok (@UTWork nq ni ns no (ut_i work) (ut_Pi work) (ut_chol w1)
          (Some sig) (Some dev) (o_sigma w1) (o_dev w1) (ut_o w1) (ut_Po w1)
          (di_dev_dq w1) (di_sigma_dq w1) (do_dev_dq w1), sig).
Proof.
move=> e; have [ei ePi _] := ut_sqrt_frame e.
by rewrite /sigma_points e /= ei ePi.
Qed.

Lemma deviations_derivative (Sm dS : 'M[R]_ni) (dPi : 'M[R]_ni) :
  dS^T *m Sm + Sm^T *m dS = (ni%:R + kap) *: dPi ->
  weighted_outer (deviations self Sm) (deviations self dS) (weights self) +
  weighted_outer (deviations self dS) (deviations self Sm) (weights self) =
  dPi.
Proof.
move=> eq; rewrite !deviations_cross // -scalerDr [_ + dS^T *m _]addrC eq.
by rewrite scalerA mulVf // scale1r.
Qed.

(** X8: on the work object that [sigma_points] has filled,
    [sigma_points_diff] of a Cholesky transform returns derivatives
    [di_sigma_dq] whose weighted mean is [di_dq] and which differentiate the
    covariance identity: the symmetrised weighted outer product of the
    deviations and their derivatives is [dPi_dq]. *)
Theorem sigma_points_diff_moments (work w2 : work_t) sig
    (di_dq : {ffun 'I_nq -> 'rV[R]_ni}) (dPi_dq : {ffun 'I_nq -> 'M[R]_ni}) :
  gradient_data_ok (ut_chol work) ->
  (forall a, symmetric (dPi_dq a)) ->
  sigma_points svd self work = Ok (w2, sig) ->
  exists w4 dsig,
    [/\ sigma_points_diff self w2 di_dq dPi_dq = Ok (w4, dsig),
        di_sigma_dq w4 = Some dsig,
        forall a, weights self *m dsig a = di_dq a &
        forall a,
          let dev := sig - rows ns (ut_i work) in
          let ddev := dsig a - rows ns (di_dq a) in
          weighted_outer dev ddev (weights self) +
          weighted_outer ddev dev (weights self) = dPi_dq a].
Proof.
move=> ok sdP es; have [w1 [Sm [e esig]]] := sigma_points_inv es.
have [eS ok1 upS dS _] := cholesky_state ok e.
move: es; rewrite (sigma_points_state e) => -[<- _].
set w2' := UTWork _ _ _ _ _ _ _ _ _ _ _ _.
have [c [dSq [ed _ _ eq]]] :=
  sigma_points_diffE (w := w2') di_dq dPi_dq eS ok1 upS dS.
rewrite ed; do 2!eexists; split; [reflexivity | by [] | |] => a.
  by rewrite !ffunE mulmxDr weights_deviations add0r weights_rows.
rewrite /= esig !ffunE !addrK.
exact/deviations_derivative/eq/sdP.
Qed.

(** What [transform_diff] computes after [transform] on a function that
    acts as [z |-> A z + b], when the derivative functions are those of
    such a map: [b] has the derivative [g] and [A] does not depend on the
    parameters. *)
Lemma transform_diff_affineE (A : 'M[R]_(no, ni)) (b : 'rV[R]_no)
    (g : {ffun 'I_nq -> 'rV[R]_no}) f df_dq df_dx (work w3 : work_t) r
    (di_dq : {ffun 'I_nq -> 'rV[R]_ni}) (dPi_dq : {ffun 'I_nq -> 'M[R]_ni}) :
  (forall X, f X = affine_map A b X) ->
  (forall X, df_dq X = [ffun a => rows ns (g a)]) ->
  (forall X, df_dx X = [ffun=> A^T]) ->
  gradient_data_ok (ut_chol work) ->
  (forall a, symmetric (dPi_dq a)) ->
  transform svd self work f = Ok (w3, r) ->
  exists (Sm : 'M[R]_ni) (dS : {ffun 'I_nq -> 'M[R]_ni}) w4 do_dq dPo_dq,
    [/\ transform_diff self w3 df_dq df_dx di_dq dPi_dq = Ok (w4, (do_dq, dPo_dq)),
        forall a, do_dq a = di_dq a *m A^T + g a,
        forall a, dPo_dq a = A *m dPi_dq a *m A^T,
        forall a,
          (dS a)^T *m Sm + Sm^T *m dS a = (ni%:R + kap) *: dPi_dq a &
        [/\ i_dev w4 = Some (deviations self Sm),
            o_dev w4 = Some (deviations self Sm *m A^T),
            di_dev_dq w4 = Some [ffun a => deviations self (dS a)] &
            exists2 ddev, do_dev_dq w4 = Some ddev &
              forall a, ddev a = deviations self (dS a) *m A^T]].
Proof.
move=> ef edq edx ok sdP et; have [w1 [Sm e]] := transform_inv et.
have [eS ok1 upS dS _] := cholesky_state ok e.
move: et; rewrite (transform_state _ e) => -[<- _].
set w3' := UTWork _ _ _ _ _ _ _ _ _ _ _ _.
have [c [dSq [ed _ _ eq]]] :=
  sigma_points_diffE (w := w3') di_dq dPi_dq eS ok1 upS dS.
have [eo edev] := affine_dev A b Sm (ut_i work) nk0.
rewrite /transform_diff /= ed /= !ef edev edq edx.
have eM (X : 'M[R]_(ns, ni)) :
    \matrix_(k, c0) (row k X *m
       ([ffun=> A^T] : {ffun 'I_ns -> 'M[R]_(ni, no)}) k) 0 c0 = X *m A^T.
  by apply/matrixP => k c0; rewrite mxE ffunE -row_mul mxE.
have edo a : weights self *m (rows ns (g a) +
    (deviations self (dSq a) + rows ns (di_dq a)) *m A^T) =
    di_dq a *m A^T + g a.
  rewrite addrC mulmxDr weights_rows // mulmxA mulmxDr weights_deviations.
  by rewrite add0r weights_rows.
have edd a : rows ns (g a) +
    (deviations self (dSq a) + rows ns (di_dq a)) *m A^T -
    rows ns (di_dq a *m A^T + g a) = deviations self (dSq a) *m A^T.
  rewrite [X in X - _]addrC mulmxDl rows_mul rowsD.
  by rewrite -[_ + _ + rows ns (g a)]addrA addrK.
exists Sm, dSq; do 3!eexists; split; first by reflexivity.
- by move=> a; rewrite ?(ffunE, eM) edo.
- move=> a; rewrite ?(ffunE, eM) edo edd weighted_outer_tr.
  rewrite weighted_outer_mul weighted_outer_mull trmxK.
  rewrite [in X in _ + X]weighted_outer_mul weighted_outer_mull trmxK.
  rewrite -mulmxDl -mulmxDr; congr (_ *m _ *m _).
  exact/deviations_derivative/eq/sdP.
- by move=> a; apply/eq/sdP.
split=> //=; eexists; first by reflexivity.
by move=> a; rewrite ?(ffunE, eM) edo edd.
Qed.

(** X9: after [transform] on an affine function [z |-> A z + b] with a
    Cholesky transform, [transform_diff] with the derivatives of that
    function ([df_dx = A^T], [df_dq = g]) returns the exact derivatives of
    the outputs [A i + b] and [A Pi A^T]: [di_dq A^T + g] and
    [A dPi_dq A^T]. *)
Theorem transform_diff_affine (A : 'M[R]_(no, ni)) (b : 'rV[R]_no)
    (g : {ffun 'I_nq -> 'rV[R]_no}) f df_dq df_dx (work w3 : work_t) r
    (di_dq : {ffun 'I_nq -> 'rV[R]_ni}) (dPi_dq : {ffun 'I_nq -> 'M[R]_ni}) :
  (forall X, f X = affine_map A b X) ->
  (forall X, df_dq X = [ffun a => rows ns (g a)]) ->
  (forall X, df_dx X = [ffun=> A^T]) ->
  gradient_data_ok (ut_chol work) ->
  (forall a, symmetric (dPi_dq a)) ->
  transform svd self work f = Ok (w3, r) ->
  exists w4 do_dq dPo_dq,
    [/\ transform_diff self w3 df_dq df_dx di_dq dPi_dq = Ok (w4, (do_dq, dPo_dq)),
        forall a, do_dq a = di_dq a *m A^T + g a &
        forall a, dPo_dq a = A *m dPi_dq a *m A^T].
Proof.
move=> ef edq edx ok sdP et.
have [Sm [dS [w4 [do_dq [dPo_dq [e e1 e2 _ _]]]]]] :=
  transform_diff_affineE di_dq ef edq edx ok sdP et.
by exists w4, do_dq, dPo_dq; split.
Qed.

(** X10: after [transform] and [transform_diff] on an affine function
    [z |-> A z + b], [crosscov_diff] returns the exact derivative
    [dPi_dq A^T] of the cross-covariance [Pi A^T]. *)
Theorem crosscov_diff_affine (A : 'M[R]_(no, ni)) (b : 'rV[R]_no)
    (g : {ffun 'I_nq -> 'rV[R]_no}) f df_dq df_dx (work w3 : work_t) r
    (di_dq : {ffun 'I_nq -> 'rV[R]_ni}) (dPi_dq : {ffun 'I_nq -> 'M[R]_ni}) :
  (forall X, f X = affine_map A b X) ->
  (forall X, df_dq X = [ffun a => rows ns (g a)]) ->
  (forall X, df_dx X = [ffun=> A^T]) ->
  gradient_data_ok (ut_chol work) ->
  (forall a, symmetric (dPi_dq a)) ->
  transform svd self work f = Ok (w3, r) ->
  exists w4 res dPio_dq,
    [/\ transform_diff self w3 df_dq df_dx di_dq dPi_dq = Ok (w4, res),
        crosscov_diff self w4 = Ok dPio_dq &
        forall a, dPio_dq a = dPi_dq a *m A^T].
Proof.
move=> ef edq edx ok sdP et.
have [Sm [dS [w4 [do_dq [dPo_dq [e _ _ eq [e1 e2 e3 [ddev e4 e5]]]]]]]] :=
  transform_diff_affineE di_dq ef edq edx ok sdP et.
exists w4, (do_dq, dPo_dq); eexists; split; first exact: e.
  by rewrite /crosscov_diff e1 e2 e3 e4 /=.
move=> a; rewrite !ffunE e5 !weighted_outer_mul -mulmxDl; congr (_ *m _).
by rewrite addrC; apply/deviations_derivative/eq.
Qed.

End TransformDerivatives.

(** *** The filter steps on linear models *)

Section LinearModel.
Variable svd : forall n : nat, 'M[R]_n -> result ('M[R]_n * 'rV[R]_n * 'M[R]_n).
Variables nq nx ny : nat.
Variable model : Model nq nx ny.
Variables pred_ut corr_ut : UnscentedTransform nx.

Notation work_t := (DTKalmanFilterWork nq ny pred_ut corr_ut).

(** X11: on a model whose transition is affine, [x |-> A x + b], [predict]
    is the prediction step of the Kalman filter: the new mean is
    [A x + b], the new covariance [A Px A^T + Q], the time index advances
    by one and the previous mean and covariance are kept as [prev_x] and
    [prev_Px]. *)
Theorem predict_linear (A : 'M[R]_nx) (b : 'rV[R]_nx) (work w' : work_t) r :
  svd_contract svd -> 0 < nx%:R + kappa pred_ut ->
  symmetric (kw_Px work) -> psd (kw_Px work) ->
  (forall X : 'M[R]_(nsigma pred_ut, nx),
     m_f model (kw_k work) X = affine_map A b X) ->
  predict svd model work = Ok (w', r) ->
  [/\ r = (kw_x work *m A^T + b,
           A *m kw_Px work *m A^T + m_Q model (kw_k work) (kw_x work)),
      kw_x w' = r.1 /\ kw_Px w' = r.2,
      kw_k w' = (kw_k work).+1,
      kw_prev_x w' = Some (kw_x work) /\ kw_prev_Px w' = Some (kw_Px work) &
      kw_L w' = kw_L work].
Proof.
move=> svdP pos sP pP ef; rewrite /predict.
case e: (transform _ _ _ _) => [[utw [f Pf]]|] //= [<- <-] /=.
have [[-> ->] _] := transform_affine_inv
  (work := Work (nq := nq) pred_ut (kw_x work) (kw_Px work)) svdP pos sP pP
  ef e.
by split.
Qed.

Lemma correct_returns_state (work w' : work_t) (y : masked_array ny) r :
  correct svd model work y = Ok (w', r) -> r = (kw_x w', kw_Px w').
Proof.
rewrite /correct; case: ifP => [_ [<- <-] //|_] /=.
case: (transform _ _ _ _) => [[utw [h Ph]]|] //=.
case: (crosscov _ _) => [Pxh|] //=.
case: (decompose _ _) => [[c PyC]|] //=.
by case: (inv _) => [PyCI|] //= [<- <-].
Qed.

Lemma colsub_affine (m na : nat) (sel : 'I_na -> 'I_ny) (H : 'M[R]_(ny, nx))
    (c : 'rV[R]_ny) (X : 'M[R]_(m, nx)) :
  colsub sel (affine_map H c X) =
  affine_map (rowsub sel H) (colsub sel c) X.
Proof.
apply/matrixP => k j; rewrite !mxE; congr (_ + _).
by apply: eq_bigr => l _; rewrite !mxE.
Qed.

Lemma left_inverse (n : nat) (A B : 'M[R]_n) :
  B *m A = 1%:M -> A \in unitmx /\ B = invmx A.
Proof.
move=> BA; have [uB uA] := mulmx1_unit BA; split=> //.
by rewrite -[LHS]mulmx1 -(mulmxV uA) mulmxA BA mul1mx.
Qed.

(** X12: on a model whose output is affine, [x |-> H x + c], a [correct]
    with active entries is the update step of the Kalman filter on the
    active rows: with [Py = Ha Px Ha^T + Ra] and [K = Px Ha^T Py^-1], the
    new mean is [x + K (ya - Ha x - ca)] and the new covariance
    [Px - K Py K^T]. *)
Theorem correct_linear (H : 'M[R]_(ny, nx)) (c : 'rV[R]_ny)
    (work w' : work_t) (y : masked_array ny) r :
  svd_contract svd -> 0 < nx%:R + kappa corr_ut ->
  symmetric (kw_Px work) -> psd (kw_Px work) -> symmetric (m_R model) ->
  (forall X : 'M[R]_(nsigma corr_ut, nx),
     m_h model (kw_k work) X = affine_map H c X) ->
  ma_mask y != setT ->
  correct svd model work y = Ok (w', r) ->
  let sel := active_index (~: ma_mask y) in
  let Ha := rowsub sel H in
  let Py := Ha *m kw_Px work *m Ha^T + mxsub sel sel (m_R model) in
  let K := kw_Px work *m Ha^T *m invmx Py in
  [/\ Py \in unitmx,
      r = (kw_x work +
             (colsub sel (ma_data y) - (kw_x work *m Ha^T + colsub sel c)) *m
             K^T,
           kw_Px work - K *m Py *m K^T) &
      kw_x w' = r.1 /\ kw_Px w' = r.2].
Proof.
move=> svdP pos sP pP sR eh my ec sel Ha Py K.
have er := correct_returns_state ec.
have [utw [h [Ph [Pxh [PyC [PyCI [et ex ech ei ew]]]]]]] := correctE my ec.
have ef (X : 'M[R]_(nsigma corr_ut, nx)) :
    colsub sel (m_h model (kw_k work) X) = affine_map Ha (colsub sel c) X.
  by rewrite eh colsub_affine.
have [[eh' ePh] ex'] := transform_affine_inv
  (work := Work (nq := nq) corr_ut (kw_x work) (kw_Px work)) svdP pos sP pP
  ef et.
move: ex; rewrite ex' => -[ePxh].
move: ech ew; rewrite ePh -/Py -ePxh /= eh' => ech ew.
have sPy : symmetric Py.
  apply: symmetricD; last exact: mxsub_sym.
  exact: symmetric_congr.
have SS := cholesky_correct sPy ech.
have PyIPy : PyCI *m PyCI^T *m Py = 1%:M.
  rewrite -SS mulmxA -[_ *m PyC^T]mulmxA -trmx_mul.
  by rewrite (mulmx1C (inv_correct ei)) trmx1 mulmx1 (inv_correct ei).
have [uPy eI] := left_inverse PyIPy.
by rewrite er ew /= eI; split.
Qed.

Lemma qform_delta (n : nat) (A : 'M[R]_n) (i : 'I_n) :
  qform A (delta_mx 0 i) = A i i.
Proof.
rewrite /qform -rowE mxE (bigD1 i) //= !mxE !eqxx mulr1 big1 ?addr0 //.
by move=> j /negbTE ji; rewrite !mxE ji andbF mulr0.
Qed.

(** X13: a correction never increases the uncertainty: with
    [kappa >= 0] and a positive semi-definite [R], the covariance after
    [correct] is below the one before in every direction, and so is its
    trace. *)
Theorem correct_contracts (work w' : work_t) (y : masked_array ny) r :
  0 <= kappa corr_ut -> nx%:R + kappa corr_ut != 0 -> psd (m_R model) ->
  correct svd model work y = Ok (w', r) ->
  (forall v, qform (kw_Px w') v <= qform (kw_Px work) v) /\
  \tr (kw_Px w') <= \tr (kw_Px work).
Proof.
move=> k0 nk0 pR ec.
have le v : qform (kw_Px w') v <= qform (kw_Px work) v.
  have [my|my] := eqVneq (ma_mask y) setT.
    by move: ec; rewrite /correct my eqxx => -[<- _].
  have [utw [h [Ph [Pxh [PyC [PyCI [et ex ech ei ->]]]]]]] := correctE my ec.
  rewrite /= qformB lerBlDr lerDl qform_congr.
  have [_ _ _ pPh] := transform_cov_psd nk0 et.
  exact/psdD/mxsub_psd/pR/pPh.
split=> //; rewrite /mxtrace; apply: ler_sum => i _.
by rewrite -!qform_delta.
Qed.

(** X14: the values stored under the mask do not matter: two measurement
    vectors with the same mask and the same active entries give the same
    [correct]. *)
Theorem correct_masked_values (work : work_t) (y1 y2 : masked_array ny) :
  ma_mask y1 = ma_mask y2 ->
  (forall j, j \notin ma_mask y1 -> ma_data y1 0 j = ma_data y2 0 j) ->
  correct svd model work y1 = correct svd model work y2.
Proof.
case: y1 y2 => d1 m1 [d2 m2] /= em; case: m2 / em => ed.
rewrite /correct /=.
have -> : colsub (active_index (~: m1)) d1 = colsub (active_index (~: m1)) d2.
  apply/rowP => j; rewrite !mxE; apply: ed.
  by have := enum_valP j; rewrite inE.
by [].
Qed.

(** X15: with [kappa >= 0] and a symmetric positive-definite [R], the
    factorisation and the inversion of the innovation covariance cannot
    fail: a [correct] with active entries returns when the unscented
    transform of the output function does, and raises what it raises. *)
Theorem correct_defined (work : work_t) (y : masked_array ny) :
  0 <= kappa corr_ut -> nx%:R + kappa corr_ut != 0 ->
  symmetric (m_R model) -> posdef (m_R model) -> ma_mask y != setT ->
  let sel := active_index (~: ma_mask y) in
  let utr := transform svd corr_ut
               (Work (nq := nq) corr_ut (kw_x work) (kw_Px work))
               (fun X => colsub sel (m_h model (kw_k work) X)) in
  (succeeds utr -> succeeds (correct svd model work y)) /\
  (forall e, utr = Raise e -> correct svd model work y = Raise e).
Proof.
move=> k0 nk0 sR pR /negbTE my sel utr.
split=> [[[utw [h Ph]] et]|e et]; last by rewrite /correct my /= -/sel -/utr et.
have [w1 [Sm e1]] := transform_inv et.
have [sPh _ _ /(_ k0) pPh] := transform_cov_psd nk0 et.
rewrite /correct my /= -/sel -/utr et /=.
have -> : crosscov corr_ut utw =
    Ok (weighted_outer (deviations corr_ut Sm)
          (colsub sel (m_h model (kw_k work)
             (deviations corr_ut Sm + rows _ (kw_x work))) -
           rows _ (weights corr_ut *m colsub sel (m_h model (kw_k work)
             (deviations corr_ut Sm + rows _ (kw_x work)))))
          (weights corr_ut)).
  by move: et; rewrite /utr (transform_state _ e1) => -[<- _ _].
rewrite /= /decompose.
set Rm := mxsub _ _ _.
have sPy : symmetric (Ph + Rm) by apply/symmetricD/mxsub_sym/sR.
have pPy : posdef (Ph + Rm).
  apply: posdefDl => //.
  by apply: mxsub_posdef => //; apply: enum_val_inj.
have [PyC ec] := cholesky_succeeds sPy pPy.
by rewrite ec /= /inv (cholesky_unit ec) /=; eexists.
Qed.

(** X16: with a Cholesky transform the filter steps need a
    positive-definite covariance: on a symmetric [Px] that is not positive
    definite, [predict] and a [correct] with active entries raise
    [LinAlgError]. *)
Theorem kalman_cholesky_raises (work : work_t) (y : masked_array ny) :
  symmetric (kw_Px work) -> ~ posdef (kw_Px work) ->
  (ut_class_of pred_ut = CholeskyUnscentedTransform ->
   0 < nx%:R + kappa pred_ut ->
   predict svd model work = Raise LinAlgError) /\
  (ut_class_of corr_ut = CholeskyUnscentedTransform ->
   0 < nx%:R + kappa corr_ut -> ma_mask y != setT ->
   correct svd model work y = Raise LinAlgError).
Proof.
move=> sP npP; split=> [cls pos|cls pos /negbTE my].
  have e := cholesky_sqrt_raises svd (self := pred_ut)
    (work := Work (nq := nq) (no := nx) pred_ut (kw_x work) (kw_Px work))
    cls pos sP npP.
  by rewrite /predict /transform /sigma_points e.
have e := cholesky_sqrt_raises svd (self := corr_ut)
  (work := Work (nq := nq) (no := #|~: ma_mask y|) corr_ut (kw_x work)
             (kw_Px work)) cls pos sP npP.
by rewrite /correct my /= /transform /sigma_points e.
Qed.

End LinearModel.

(** *** The filter driver, one measurement at a time *)

Section FilterOnline.
Variables (W Y X P : Type).
Variable correct : W -> Y -> result (W * (X * P)).
Variable predict : W -> result (W * (X * P)).

Lemma filter_loop_rcons (N : nat) (ys : seq Y) (y : Y) k w xs Ps :
  (k + size ys = N)%N -> ~~ nilp ys ->
  filter_loop correct predict N.+1 (rcons ys y) k w xs Ps =
  bind (filter_loop correct predict N ys k w xs Ps)
    (filter_step correct predict y).
Proof.
elim: ys k w xs Ps => [//|y0 ys IH] k w xs Ps kN _ /=.
case ec: (correct w y0) => [[w1 [x0 P0]]|] //=.
have kN' : (k < N)%N by rewrite -kN addnS ltnS leq_addr.
rewrite subSS subn0 kN'.
case: ys IH kN => [|y1 ys] IH kN /=.
  have eN : N = k.+1 by rewrite -kN /= addn1.
  rewrite eN !subn1 /= !ltnn /= /filter_step /=.
  by case: (predict w1) => [[w2 r2]|].
have -> : (k < N - 1)%N by rewrite -kN !addnS subn1 /= ltnS leq_addr.
case: (predict w1) => [[w2 r2]|] //=.
by apply: IH => //; rewrite addSnnS.
Qed.

(** X17: [filter] can be run one measurement at a time: on an empty
    sequence it returns empty trajectories and the work object untouched,
    on one measurement it corrects once, and on a sequence extended by one
    measurement it does what it does on the sequence, then [predict], then
    [correct] on the new measurement, appending its result; an exception of
    any call ends the run with that exception. *)
Theorem filter_rcons (work : W) :
  [/\ kf_filter correct predict work [::] = Ok (work, ([::], [::])),
      forall y,
        kf_filter correct predict work [:: y] =
        (let! (w, (xk, Pxk)) := correct work y in Ok (w, ([:: xk], [:: Pxk]))) &
      forall ys y, ~~ nilp ys ->
        kf_filter correct predict work (rcons ys y) =
        bind (kf_filter correct predict work ys)
          (filter_step correct predict y)].
Proof.
split=> [|y|ys y ys0]; first by [].
  rewrite /kf_filter /=.
  by case: (correct work y) => [[w [xk Pxk]]|].
by rewrite /kf_filter size_rcons; apply: filter_loop_rcons.
Qed.

End FilterOnline.

(** *** Derivatives of the prediction *)

Section PredictionDerivatives.
Variable svd : forall n : nat, 'M[R]_n -> result ('M[R]_n * 'rV[R]_n * 'M[R]_n).
Variables nq nx ny : nat.
Variable model : Model nq nx ny.
Variable dmodel : ModelDerivatives nq nx.
Variables pred_ut corr_ut : UnscentedTransform nx.

Notation work_t := (DTKalmanFilterWork nq ny pred_ut corr_ut).

Lemma succ_pred_int (k : nat) : (k.+1)%:Z - 1 = k%:Z.
Proof. by rewrite intS addrC addKr. Qed.

(** X18: after [predict] on an affine transition [x |-> A x + b] with a
    Cholesky transform, [prediction_diff] evaluates the model derivatives
    at the time index and the mean that [predict] started from, keeps the
    old derivatives as [prev_dx_dq] and [prev_dPx_dq], and adds to them
    the derivatives of the prediction: [dx_dq] becomes
    [dx_dq + (dx_dq A^T + g)] and [dPx_dq] becomes
    [dPx_dq + (A dPx_dq A^T + DQ_Dq)]. *)
Theorem prediction_diff_linear (A : 'M[R]_nx) (b : 'rV[R]_nx)
    (g : {ffun 'I_nq -> 'rV[R]_nx}) (work w' : work_t) r
    (dx_dq : {ffun 'I_nq -> 'rV[R]_nx}) (dPx_dq : {ffun 'I_nq -> 'M[R]_nx}) :
  ut_class_of pred_ut = CholeskyUnscentedTransform -> (0 < nx)%N ->
  nx%:R + kappa pred_ut != 0 ->
  (forall X : 'M[R]_(nsigma pred_ut, nx),
     m_f model (kw_k work) X = affine_map A b X) ->
  (forall X : 'M[R]_(nsigma pred_ut, nx),
     m_df_dq dmodel (kw_k work)%:Z X = [ffun a => rows _ (g a)]) ->
  (forall X : 'M[R]_(nsigma pred_ut, nx),
     m_df_dx dmodel (kw_k work)%:Z X = [ffun=> A^T]) ->
  kw_dx_dq work = Some dx_dq -> kw_dPx_dq work = Some dPx_dq ->
  (forall a, symmetric (dPx_dq a)) ->
  predict svd model work = Ok (w', r) ->
  exists pdw d1 d2,
    [/\ prediction_diff dmodel w' = Ok pdw,
        kw_dx_dq (pd_work pdw) = Some d1 /\
        kw_dPx_dq (pd_work pdw) = Some d2,
        prev_dx_dq pdw = Some dx_dq /\ prev_dPx_dq pdw = Some dPx_dq,
        forall a, d1 a = dx_dq a + (dx_dq a *m A^T + g a) &
        forall a,
          d2 a = dPx_dq a +
                 (A *m dPx_dq a *m A^T +
                  (m_dQ_dq dmodel (kw_k work)%:Z (kw_x work) a +
                   \sum_j dx_dq a 0 j *:
                          m_dQ_dx dmodel (kw_k work)%:Z (kw_x work) j))].
Proof.
move=> cls n0 nk0 ef edq edx edx_dq edPx_dq sdP; rewrite /predict.
case et: (transform _ _ _ _) => [[utw [f Pf]]|] //= [<- _].
have ok : gradient_data_ok
    (ut_chol (Work (nq := nq) (no := nx) pred_ut (kw_x work) (kw_Px work))).
  by left.
have [Sm [dS [w4 [do_dq [dPo_dq [e e1 e2 _ _]]]]]] :=
  transform_diff_affineE cls n0 nk0 dx_dq ef edq edx ok sdP et.
rewrite /prediction_diff /= succ_pred_int edx_dq edPx_dq /= e /=.
do 3!eexists; split; [reflexivity | by split | by split | |] => a.
  by rewrite ffunE e1.
by rewrite !ffunE e2.
Qed.

(** X19: [prediction_diff] needs a prior [predict] and a transform that
    can be differentiated: on a work object without [prev_x] it raises
    [AttributeError], and with an SVD transform it raises
    [AttributeError] on every work object. *)
Theorem prediction_diff_raises (work : work_t) :
  (kw_prev_x work = None -> prediction_diff dmodel work = Raise AttributeError)
  /\
  (ut_class_of pred_ut = SVDUnscentedTransform ->
   prediction_diff dmodel work = Raise AttributeError).
Proof.
split=> [e|cls]; rewrite /prediction_diff ?e //.
case: (kw_prev_x work) => [x|] //=; case: (kw_pred_ut work) => [utw|] //=.
case: (kw_dx_dq work) => [dx|] //=; case: (kw_dPx_dq work) => [dP|] //=.
by rewrite transform_diff_svd.
Qed.

End PredictionDerivatives.

(** *** The order of the calls on a transform work object *)

Section CallOrder.
Variable svd : forall n : nat, 'M[R]_n -> result ('M[R]_n * 'rV[R]_n * 'M[R]_n).
Variables nq ni no : nat.
Variable self : UnscentedTransform ni.

Notation work_t := (UnscentedTransformWork nq ni (nsigma self) no).

Lemma sigma_points_diff_fresh (w : work_t) di_dq dPi_dq :
  chol_S (ut_chol w) = None ->
  sigma_points_diff self w di_dq dPi_dq = Raise AttributeError.
Proof.
move=> eS; rewrite /sigma_points_diff /ut_sqrt_diff.
by case: (ut_class_of self); rewrite // /diff eS.
Qed.

Lemma sigma_points_diff_outcome (w : work_t) di_dq dPi_dq (Sm : 'M[R]_ni) :
  chol_S (ut_chol w) = Some Sm -> upper_triangular Sm ->
  (forall i, 0 < Sm i i) -> gradient_data_initialized (ut_chol w) = None ->
  ni_range (ut_chol w) = None ->
  (exists w' dsig,
     sigma_points_diff self w di_dq dPi_dq = Ok (w', dsig) /\
     o_dev w' = o_dev w) \/
  sigma_points_diff self w di_dq dPi_dq = Raise AttributeError.
Proof.
move=> eS upS dS ini rng.
case cls: (ut_class_of self); last first.
  by right; rewrite /sigma_points_diff /ut_sqrt_diff cls.
have [n0|] := posnP ni; last first.
  move=> n0; left.
  have [c [dSq [-> _ _ _]]] := sigma_points_diffE cls n0 di_dq dPi_dq eS
    (or_introl ini) upS dS.
  by do 2!eexists; split; first by reflexivity.
have z : (0%N == ni) = true by rewrite n0.
right; rewrite /sigma_points_diff /ut_sqrt_diff cls /diff eS /=.
by rewrite /initialize_gradient_data ini /= z rng.
Qed.

(** X20: the derivative and cross-covariance methods need the forward
    pass: on a fresh work object [crosscov], [crosscov_diff],
    [sigma_points_diff] and [transform_diff] raise [AttributeError], and
    after [sigma_points] alone, without [transform], [crosscov] and
    [transform_diff] still raise [AttributeError]. *)
Theorem call_order (i : 'rV[R]_ni) (Pi : 'M[R]_ni) df_dq df_dx di_dq dPi_dq :
  [/\ crosscov self (Work (nq := nq) (no := no) self i Pi) =
        Raise AttributeError,
      crosscov_diff self (Work (nq := nq) (no := no) self i Pi) =
        Raise AttributeError,
      sigma_points_diff self (Work (nq := nq) (no := no) self i Pi)
        di_dq dPi_dq = Raise AttributeError,
      transform_diff self (Work (nq := nq) (no := no) self i Pi)
        df_dq df_dx di_dq dPi_dq = Raise AttributeError &
      forall w2 sig,
        sigma_points svd self (Work (nq := nq) (no := no) self i Pi) =
          Ok (w2, sig) ->
        crosscov self w2 = Raise AttributeError /\
        transform_diff self w2 df_dq df_dx di_dq dPi_dq =
          Raise AttributeError].
Proof.
split; [by [] | by [] | exact: sigma_points_diff_fresh | by [] |].
move=> w2 sig es.
have [w1 [Sm [e _]]] := sigma_points_inv es.
have ew2 : o_dev w2 = None /\ i_sigma w2 = Some sig.
  move: es; rewrite /sigma_points e /= => -[<- <-] /=; split=> //.
  by move: e; rewrite /ut_sqrt; case: (ut_class_of self);
    [case: (decompose _ _) => [[c S1]|] //= [<- _]
    |case: (svd _) => [[[U s] VT]|] //= [<- _]].
case: ew2 => eo esig; split; first by rewrite /crosscov eo; case: (i_dev w2).
rewrite /transform_diff esig /=.
case cls: (ut_class_of self); last first.
  by rewrite /sigma_points_diff /ut_sqrt_diff cls.
have ok0 : gradient_data_ok
    (ut_chol (Work (nq := nq) (no := no) self i Pi)) by left.
have [eS ok1 upS dS _] := cholesky_state cls ok0 e.
have eS2 : chol_S (ut_chol w2) = Some Sm.
  by move: es; rewrite /sigma_points e /= => -[<- _].
have [ini rng] : gradient_data_initialized (ut_chol w2) = None /\
    ni_range (ut_chol w2) = None.
  move: es; rewrite /sigma_points e /= => -[<- _] /=.
  by have [_ _ -> -> _] := ut_sqrt_cholesky cls e.
have [[w' [dsig [-> eo']]]|->] //= :=
  sigma_points_diff_outcome di_dq dPi_dq eS2 upS dS ini rng.
by rewrite eo' eo.
Qed.

End CallOrder.

(** *** Floors and likelihood on linear models *)

Section FilterBounds.
Variable svd : forall n : nat, 'M[R]_n -> result ('M[R]_n * 'rV[R]_n * 'M[R]_n).
Variables nq nx ny : nat.
Variable model : Model nq nx ny.
Variables pred_ut corr_ut : UnscentedTransform nx.

Notation work_t := (DTKalmanFilterWork nq ny pred_ut corr_ut).

(** X21: a prediction cannot make the covariance smaller than the process
    noise: with [kappa >= 0], whatever the transition function and the
    covariance before, the covariance after [predict] exceeds [Q] by a
    symmetric positive semi-definite matrix. *)
Theorem predict_floor (work w' : work_t) r :
  0 <= kappa pred_ut -> nx%:R + kappa pred_ut != 0 ->
  predict svd model work = Ok (w', r) ->
  symmetric (kw_Px w' - m_Q model (kw_k work) (kw_x work)) /\
  psd (kw_Px w' - m_Q model (kw_k work) (kw_x work)).
Proof.
move=> k0 nk0; rewrite /predict.
case et: (transform _ _ _ _) => [[utw [f Pf]]|] //= [<- _] /=.
have [sPf _ _ /(_ k0) pPf] := transform_cov_psd nk0 et.
by rewrite addrK.
Qed.

(** X22: on a model with affine output, [correct] followed by
    [update_likelihood] lowers [L] by the negative logarithm of the
    Gaussian density of the innovation, without its constant term:
    [0.5 e Py^-1 e^T + 0.5 log (det Py)] with [Py = Ha Px Ha^T + Ra] and
    [e = ya - Ha x - ca]. *)
Theorem likelihood_linear (H : 'M[R]_(ny, nx)) (c : 'rV[R]_ny)
    (work w' : work_t) (y : masked_array ny) r (L : R) :
  svd_contract svd -> 0 < nx%:R + kappa corr_ut ->
  symmetric (kw_Px work) -> psd (kw_Px work) -> symmetric (m_R model) ->
  (forall X : 'M[R]_(nsigma corr_ut, nx),
     m_h model (kw_k work) X = affine_map H c X) ->
  ma_mask y != setT -> kw_L work = Some L ->
  correct svd model work y = Ok (w', r) ->
  let sel := active_index (~: ma_mask y) in
  let Ha := rowsub sel H in
  let Py := Ha *m kw_Px work *m Ha^T + mxsub sel sel (m_R model) in
  let e := colsub sel (ma_data y) - (kw_x work *m Ha^T + colsub sel c) in
  exists w'',
    update_likelihood w' = Ok w'' /\
    kw_L w'' = Some (L - (2^-1 * qform (invmx Py) e + 2^-1 * ln (\det Py))).
Proof.
move=> svdP pos sP pP sR eh my eL ec sel Ha Py e.
have [utw [h [Ph [Pxh [PyC [PyCI [w'' [et ecd [upC SS PyIPy] [eu eL'] ld]]]]]]]]
  := correct_likelihood sR eL ec my.
have ef (X : 'M[R]_(nsigma corr_ut, nx)) :
    colsub sel (m_h model (kw_k work) X) = affine_map Ha (colsub sel c) X.
  by rewrite eh colsub_affine.
have [[eh' ePh] _] := transform_affine_inv
  (work := Work (nq := nq) corr_ut (kw_x work) (kw_Px work)) svdP pos sP pP
  ef et.
move: PyIPy ld eL'; rewrite ePh eh' -/Py -/e => PyIPy ld eL'.
have [_ eI] := left_inverse PyIPy.
exists w''; split=> //; rewrite eL' eI ld; congr (Some _).
by rewrite opprD addrA [_ / 2]mulrC.
Qed.

End FilterBounds.

(** *** Options of the constructors *)

Section ConstructorOptions.
Variable extract_subkeys : options -> string -> options.
Variable nx : nat.





End ConstructorOptions.

(** *** Invariants along a run of the filter *)

Section FilterInvariant.
Variables (W Y X : Type) (P : eqType).
Variable correct : W -> Y -> result (W * (X * P)).
Variable predict : W -> result (W * (X * P)).
Variable Inv : W -> Prop.
Variable Good : P -> Prop.

Hypothesis correct_inv : forall w y w' x p,
  Inv w -> correct w y = Ok (w', (x, p)) -> Inv w' /\ Good p.
Hypothesis predict_inv : forall w w' r,
  Inv w -> predict w = Ok (w', r) -> Inv w'.


End FilterInvariant.

Section FilterRun.
Variable svd : forall n : nat, 'M[R]_n -> result ('M[R]_n * 'rV[R]_n * 'M[R]_n).
Variables nq nx ny : nat.
Variable model : Model nq nx ny.
Variables pred_ut corr_ut : UnscentedTransform nx.

Notation work_t := (DTKalmanFilterWork nq ny pred_ut corr_ut).


(** X25: after an identity step, [correction_diff] does nothing: when
    every entry of [y] is masked, [correct] followed by [correction_diff]
    returns the work object of [correct] unchanged. *)
Theorem correction_diff_identity (work w' : work_t) (y : masked_array ny) r :
  ma_mask y = setT -> correct svd model work y = Ok (w', r) ->
  correction_diff model w' = Ok w' /\
  kw_dx_dq w' = kw_dx_dq work /\ kw_dPx_dq w' = kw_dPx_dq work.
Proof.
move=> my; rewrite /correct my eqxx => -[<- _].
by rewrite /correction_diff /= setCT eqxx.
Qed.

End FilterRun.

(** *** The statements on the example inputs *)

Lemma example_dP_sym a : symmetric (example_dP a).
Proof. by rewrite ffunE; apply: symmetric_scalar. Qed.

Lemma unit_work_facts (self : UnscentedTransform 1) :
  symmetric (ut_Pi (unit_work self)) /\ posdef (ut_Pi (unit_work self)).
Proof. by split; [apply: symmetric_scalar | apply: posdef_scalar]. Qed.

Lemma example_pos : 0 < 1%:R + kappa example_ut :> R.
Proof. by rewrite /= addr0 ltr01. Qed.

Lemma unit_transform f :
  succeeds (transform svd_diagonal example_ut (unit_work example_ut) f).
Proof.
have [k0 nk0] := example_kappa; have [sP pP] := unit_work_facts example_ut.
exact: transform_succeeds.
Qed.

Lemma unit_sigma_points :
  succeeds (sigma_points svd_diagonal example_ut (unit_work example_ut)).
Proof.
have [[w3 r] e] := unit_transform id; move: e; rewrite /transform.
by case: (sigma_points _ _ _) => [[w2 sig]|] //= _; eexists.
Qed.

Lemma flat_not_posdef (n : nat) : ~ posdef (0 : 'M[R]_n.+1).
Proof.
move=> /(_ (const_mx 1)); rewrite /qform mulmx0 mul0mx mxE ltxx.
have ne : const_mx 1 != 0 :> 'rV[R]_n.+1.
  by apply/eqP => /rowP /(_ 0) /eqP; rewrite !mxE oner_eq0.
by move=> /(_ ne).
Qed.

Lemma affine_id (m n : nat) (X : 'M[R]_(m, n)) : X = affine_map 1%:M 0 X.
Proof.
rewrite /affine_map trmx1 mulmx1; apply/matrixP => i j.
by rewrite !mxE addr0.
Qed.

Lemma decompose_diff_witness :
  exists w1 Sm w2 dS_dq,
    [/\ decompose (chol_work0 1) ((2 * 2)%:M) = Ok (w1, Sm),
        diff w1 example_dP = Ok (w2, dS_dq),
        chol_S w2 = Some Sm, forall a, upper_triangular (dS_dq a) &
        forall a, (dS_dq a)^T *m Sm + Sm^T *m dS_dq a = example_dP a].
Proof.
apply: decompose_diff => //.
- by left.
- exact: symmetric_scalar.
- exact/posdef_scalar/two_sq_gt0.
- exact: example_dP_sym.
Defined.

Lemma diff_defined_witness :
  (chol_S (chol_work0 1) = None ->
   diff (chol_work0 1) example_dP = Raise AttributeError) /\
  (forall Sm, chol_S (chol_work0 1) = Some Sm -> upper_triangular Sm ->
     ((forall i, Sm i i != 0) -> succeeds (diff (chol_work0 1) example_dP)) /\
     (forall k, Sm k k = 0 ->
        diff (chol_work0 1) example_dP = Raise LinAlgError)).
Proof. by apply: diff_defined => //; left. Defined.


Lemma transform_cov_psd_witness :
  exists w3 o Po,
    [/\ transform svd_diagonal example_ut (unit_work example_ut)
          (fun X => X *m X^T *m X) = Ok (w3, (o, Po)),
        symmetric Po, ut_Po w3 = Some Po & psd Po].
Proof.
have [[w3 [o Po]] et] := unit_transform (fun X => X *m X^T *m X).
have [k0 nk0] := example_kappa.
have [sPo ePo _ pPo] := transform_cov_psd nk0 et.
by exists w3, o, Po; split=> //; apply: pPo.
Defined.

Lemma crosscov_affine_witness :
  exists w3 r,
    transform svd_diagonal example_ut (unit_work example_ut)
      (affine_map (2%:M) (const_mx 1)) = Ok (w3, r) /\
    crosscov example_ut w3 = Ok (ut_Pi (unit_work example_ut) *m (2%:M)^T).
Proof.
have [[w3 r] et] := unit_transform (affine_map (2%:M) (const_mx 1)).
have [sP pP] := unit_work_facts example_ut.
exists w3, r; split=> //.
exact: crosscov_affine svd_diagonal_contract example_pos sP (posdef_psd pP) et.
Defined.

Lemma cholesky_transform_raises_witness :
  sigma_points svd_diagonal example_ut (flat_work example_ut) =
    Raise LinAlgError /\
  transform svd_diagonal example_ut (flat_work example_ut) id =
    Raise LinAlgError.
Proof.
apply: cholesky_transform_raises => //; first exact: example_pos.
  exact: trmx0.
exact: flat_not_posdef.
Defined.

Lemma svd_sqrt_exact_witness :
  exists w1,
    [/\ ut_sqrt svd_diagonal example_svd_ut (flat_work example_svd_ut)
          (0%:M) =
        Ok (w1, (1%:M *m diag_mx (map_mx sqrt (\row_j (0%:M : 'M[R]_1) j j)))^T),
        chol_S (ut_chol w1) =
          Some (1%:M *m diag_mx (map_mx sqrt (\row_j (0%:M : 'M[R]_1) j j)))^T &
        (1%:M *m diag_mx (map_mx sqrt (\row_j (0%:M : 'M[R]_1) j j))) *m
        (1%:M *m diag_mx (map_mx sqrt (\row_j (0%:M : 'M[R]_1) j j)))^T =
        0%:M].
Proof.
have es : svd_diagonal (0%:M : 'M[R]_1) =
    Ok (1%:M, \row_j (0%:M : 'M[R]_1) j j, 1%:M).
  exact: svd_diagonal_scalar.
have sQ : symmetric (0%:M : 'M[R]_1) by apply: symmetric_scalar.
have pQ : psd (0%:M : 'M[R]_1) by move=> v; rewrite qform_scalar mul0r.
exact: (@svd_sqrt_exact svd_diagonal 1 1 1 example_svd_ut
          (flat_work example_svd_ut) _ _ _ _ erefl svd_diagonal_contract
          sQ pQ es).
Defined.

Lemma unit_work_ok (self : UnscentedTransform 1) :
  gradient_data_ok (ut_chol (unit_work self)).
Proof. by left. Qed.

Lemma sigma_points_diff_moments_witness :
  exists w2 sig w4 dsig,
    [/\ sigma_points svd_diagonal example_ut (unit_work example_ut) =
          Ok (w2, sig),
        sigma_points_diff example_ut w2 example_di example_dP = Ok (w4, dsig),
        forall a, weights example_ut *m dsig a = example_di a &
        forall a,
          weighted_outer (sig - rows _ (ut_i (unit_work example_ut)))
            (dsig a - rows _ (example_di a)) (weights example_ut) +
          weighted_outer (dsig a - rows _ (example_di a))
            (sig - rows _ (ut_i (unit_work example_ut))) (weights example_ut) =
          example_dP a].
Proof.
have [[w2 sig] es] := unit_sigma_points.
have [k0 nk0] := example_kappa.
have [w4 [dsig [e1 _ e2 e3]]] := sigma_points_diff_moments
  (self := example_ut) erefl (ltn0Sn 0)
  nk0 example_di (unit_work_ok example_ut) example_dP_sym es.
by exists w2, sig, w4, dsig; split.
Defined.

Lemma example_df (X : 'M[R]_(nsigma example_ut, 1)) :
  m_df_dq example_dmodel 0 X = [ffun a => rows _ (example_g a)] /\
  m_df_dx example_dmodel 0 X = [ffun=> (1%:M)^T].
Proof. by []. Qed.

Lemma transform_diff_affine_witness :
  exists w3 r w4 do_dq dPo_dq,
    [/\ transform svd_diagonal example_ut (unit_work example_ut) id =
          Ok (w3, r),
        transform_diff example_ut w3 (m_df_dq example_dmodel 0 (m := _))
          (m_df_dx example_dmodel 0 (m := _)) example_di example_dP =
        Ok (w4, (do_dq, dPo_dq)),
        forall a, do_dq a = example_di a *m (1%:M)^T + example_g a &
        forall a, dPo_dq a = 1%:M *m example_dP a *m (1%:M)^T].
Proof.
have [[w3 r] et] := unit_transform id.
have [k0 nk0] := example_kappa.
have [w4 [do_dq [dPo_dq [e e1 e2]]]] := transform_diff_affine
  (self := example_ut) erefl (ltn0Sn 0) nk0 example_di (@affine_id _ _)
  (fun X => proj1 (example_df X)) (fun X => proj2 (example_df X))
  (unit_work_ok example_ut) example_dP_sym et.
by exists w3, r, w4, do_dq, dPo_dq; split.
Defined.

Lemma crosscov_diff_affine_witness :
  exists w3 r w4 res dPio_dq,
    [/\ transform svd_diagonal example_ut (unit_work example_ut) id =
          Ok (w3, r),
        transform_diff example_ut w3 (m_df_dq example_dmodel 0 (m := _))
          (m_df_dx example_dmodel 0 (m := _)) example_di example_dP =
        Ok (w4, res),
        crosscov_diff example_ut w4 = Ok dPio_dq &
        forall a, dPio_dq a = example_dP a *m (1%:M)^T].
Proof.
have [[w3 r] et] := unit_transform id.
have [k0 nk0] := example_kappa.
have [w4 [res [dPio_dq [e e1 e2]]]] := crosscov_diff_affine
  (self := example_ut) erefl (ltn0Sn 0) nk0 example_di (@affine_id _ _)
  (fun X => proj1 (example_df X)) (fun X => proj2 (example_df X))
  (unit_work_ok example_ut) example_dP_sym et.
by exists w3, r, w4, res, dPio_dq; split.
Defined.

Lemma example_work_facts :
  [/\ symmetric (kw_Px example_work), posdef (kw_Px example_work),
      symmetric (m_R example_model) & posdef (m_R example_model)].
Proof.
split; [exact: symmetric_scalar | exact: posdef_scalar |
        exact: symmetric_scalar | exact/posdef_scalar/two_sq_gt0].
Qed.

Lemma example_predict :
  succeeds (predict svd_diagonal example_model example_work).
Proof.
have [k0 nk0] := example_kappa; have [sP pP _ _] := example_work_facts.
exact: predict_succeeds.
Qed.

Lemma predict_linear_witness :
  exists w' r,
    [/\ predict svd_diagonal example_model example_work = Ok (w', r),
        r = (kw_x example_work *m (1%:M)^T + 0,
             1%:M *m kw_Px example_work *m (1%:M)^T +
             m_Q example_model (kw_k example_work) (kw_x example_work)),
        kw_k w' = (kw_k example_work).+1 &
        kw_L w' = kw_L example_work].
Proof.
have [[w' r] ep] := example_predict.
have [sP pP _ _] := example_work_facts.
have [e1 _ e2 _ e3] := predict_linear (model := example_model)
  (A := 1%:M) (b := 0) svd_diagonal_contract example_pos sP
  (posdef_psd pP) (@affine_id _ _) ep.
by exists w', r; split.
Defined.

Lemma correct_linear_witness :
  exists w' r,
    correct svd_diagonal example_model example_work example_y = Ok (w', r) /\
    kw_x w' = r.1 /\ kw_Px w' = r.2.
Proof.
have [[w' r] ec] := example_correct (model := example_model) erefl.
have [sP pP sR _] := example_work_facts.
have [_ _ e] := correct_linear (model := example_model)
  (H := 1%:M) (c := 0) svd_diagonal_contract example_pos sP
  (posdef_psd pP) sR (@affine_id _ _) example_active ec.
by exists w', r; split.
Defined.

Lemma correct_contracts_witness :
  exists w' r,
    [/\ correct svd_diagonal example_model example_work example_y =
          Ok (w', r),
        forall v, qform (kw_Px w') v <= qform (kw_Px example_work) v &
        \tr (kw_Px w') <= \tr (kw_Px example_work)].
Proof.
have [[w' r] ec] := example_correct (model := example_model) erefl.
have [k0 nk0] := example_kappa; have [_ _ _ pR] := example_work_facts.
have [e1 e2] := correct_contracts k0 nk0 (posdef_psd pR) ec.
by exists w', r; split.
Defined.

Lemma correct_masked_values_witness :
  correct svd_diagonal example_model example_work missing_y =
  correct svd_diagonal example_model example_work masked_y.
Proof.
apply: correct_masked_values => // j.
by rewrite inE.
Defined.

Lemma correct_defined_witness :
  (succeeds (transform svd_diagonal example_ut
               (Work (nq := 1) example_ut (kw_x example_work)
                  (kw_Px example_work))
               (fun X => colsub (active_index (~: ma_mask example_y))
                           (m_h example_model (kw_k example_work) X))) ->
   succeeds (correct svd_diagonal example_model example_work example_y)) /\
  (forall e,
     transform svd_diagonal example_ut
       (Work (nq := 1) example_ut (kw_x example_work) (kw_Px example_work))
       (fun X => colsub (active_index (~: ma_mask example_y))
                   (m_h example_model (kw_k example_work) X)) = Raise e ->
     correct svd_diagonal example_model example_work example_y = Raise e).
Proof.
have [k0 nk0] := example_kappa; have [_ _ sR pR] := example_work_facts.
exact: (correct_defined svd_diagonal example_work k0 nk0 sR pR
          example_active).
Defined.

Lemma kalman_cholesky_raises_witness :
  predict svd_diagonal example_model flat_filter_work = Raise LinAlgError /\
  correct svd_diagonal example_model flat_filter_work example_y =
    Raise LinAlgError.
Proof.
have sP : symmetric (kw_Px flat_filter_work) by apply: trmx0.
have [hp hc] := kalman_cholesky_raises svd_diagonal example_model example_y
  sP (@flat_not_posdef 0).
split; first exact: hp erefl example_pos.
exact: hc erefl example_pos example_active.
Defined.

Lemma prediction_diff_linear_witness :
  exists w' r pdw d1 d2,
    [/\ predict svd_diagonal example_model example_work = Ok (w', r),
        prediction_diff example_dmodel w' = Ok pdw,
        kw_dx_dq (pd_work pdw) = Some d1 /\
        kw_dPx_dq (pd_work pdw) = Some d2,
        forall a, d1 a = 0 + (0 *m (1%:M)^T + example_g a) &
        prev_dx_dq pdw = Some [ffun=> 0] /\
        prev_dPx_dq pdw = Some [ffun=> 0]].
Proof.
have [[w' r] ep] := example_predict.
have [k0 nk0] := example_kappa.
have sdP a : symmetric (([ffun=> 0] : {ffun 'I_1 -> 'M[R]_1}) a).
  by rewrite ffunE; apply: trmx0.
have [pdw [d1 [d2 [e1 e2 e3 e4 _]]]] := prediction_diff_linear
  (model := example_model) (dmodel := example_dmodel) (pred_ut := example_ut)
  (A := 1%:M) (b := 0) (work := example_work) erefl (ltn0Sn 0) nk0
  (@affine_id _ _) (fun X => proj1 (example_df X))
  (fun X => proj2 (example_df X))
  (erefl : kw_dx_dq example_work = Some [ffun=> 0])
  (erefl : kw_dPx_dq example_work = Some [ffun=> 0]) sdP ep.
exists w', r, pdw, d1, d2; split=> // a.
by rewrite e4 !ffunE.
Defined.

Lemma predict_floor_witness :
  exists w' r,
    [/\ predict svd_diagonal example_model example_work = Ok (w', r),
        symmetric (kw_Px w' -
                   m_Q example_model (kw_k example_work) (kw_x example_work)) &
        psd (kw_Px w' -
             m_Q example_model (kw_k example_work) (kw_x example_work))].
Proof.
have [[w' r] ep] := example_predict.
have [k0 nk0] := example_kappa.
have [e1 e2] := predict_floor k0 nk0 ep.
by exists w', r; split.
Defined.

Lemma likelihood_linear_witness :
  exists w' r w'',
    [/\ correct svd_diagonal example_model example_work example_y =
          Ok (w', r),
        update_likelihood w' = Ok w'' &
        exists l, kw_L w'' = Some (0 - l)].
Proof.
have [[w' r] ec] := example_correct (model := example_model) erefl.
have [sP pP sR _] := example_work_facts.
have [w'' [eu eL]] := likelihood_linear
  (model := example_model) (H := 1%:M) (c := 0) svd_diagonal_contract
  example_pos sP
  (posdef_psd pP) sR (@affine_id _ _) example_active
  (erefl : kw_L example_work = Some 0) ec.
by exists w', r, w''; split=> //; eexists; exact: eL.
Defined.


Lemma correction_diff_identity_witness :
  exists w' r,
    correct svd_diagonal example_model example_work missing_y = Ok (w', r) /\
    correction_diff example_model w' = Ok w'.
Proof.
have ec : correct svd_diagonal example_model example_work missing_y =
    Ok (KWork (kw_x example_work) (kw_Px example_work) (kw_k example_work)
          (Some (~: ma_mask missing_y)) (kw_prev_x example_work)
          (kw_prev_Px example_work) (kw_pred_ut example_work)
          (kw_corr example_work) (kw_L example_work) (kw_PyCD example_work)
          (kw_dx_dq example_work) (kw_dPx_dq example_work),
        (kw_x example_work, kw_Px example_work)).
  by rewrite /correct /= eqxx.
have [e _] := correction_diff_identity (y := missing_y) erefl ec.
by do 2!eexists; split; [exact: ec | exact: e].
Defined.
